(** * The OCI block-volume provisioner (pkg/provisioner/block/block.go)

    A shallow embedding of the block provisioner: size computation,
    the request-level rounding switch, the availability poll, [Provision]
    and [Delete].  Go's [int64] is a [Z] with its wrap-around written out,
    maps are [gmap]s, and the code's calls to the storage client, to the
    instance metadata service and to the logger are threaded through an
    explicit [World] (logical clock, call trace, log). *)

From Stdlib Require Import ZArith Lia Ascii.
From stdpp Require Import base gmap strings list.

Local Open Scope Z_scope.

(** ** Machine integers *)

Module Int64.

Definition MaxInt64 : Z := 2 ^ 63 - 1.
Definition MinInt64 : Z := - 2 ^ 63.

(** Two's-complement wrap-around of a 64-bit signed result. *)
Definition wrap (z : Z) : Z := (z + 2 ^ 63) mod 2 ^ 64 - 2 ^ 63.

Definition InRange (z : Z) : Prop := MinInt64 ≤ z ≤ MaxInt64.

Definition add (a b : Z) : Z := wrap (a + b).
Definition sub (a b : Z) : Z := wrap (a - b).
(** Go's [/] truncates toward zero. *)
Definition div (a b : Z) : Z := wrap (a ÷ b).

End Int64.

(** ** Size computation *)

(** [roundUpSize] (block.go:99-101).  The source panics on a zero
    [allocationUnitBytes]; its only caller passes the constant 1024*1024. *)
Definition roundUpSize (volumeSizeBytes allocationUnitBytes : Z) : Z :=
  Int64.div (Int64.sub (Int64.add volumeSizeBytes allocationUnitBytes) 1)
            allocationUnitBytes.

(** ** Errors *)

Inductive VolumeLifecycleState :=
| Provisioning | Restoring | Available | Terminating | Terminated | Faulty.

Inductive PersistentVolumeAccessMode :=
| ReadWriteOnce | ReadOnlyMany | ReadWriteMany.

#[global] Instance VolumeLifecycleState_eq_dec : EqDecision VolumeLifecycleState.
Proof. solve_decision. Defined.
#[global] Instance PersistentVolumeAccessMode_eq_dec :
  EqDecision PersistentVolumeAccessMode.
Proof. solve_decision. Defined.

(** The error values the package builds or passes on. *)
Inductive error :=
| ErrInvalidAccessMode (accessMode : PersistentVolumeAccessMode)
    (* "invalid access mode %v specified. Only %v is supported" *)
| ErrNoVolumeSize
    (* "could not determine volume size for PVC" *)
| ErrLifecycle (state : VolumeLifecycleState)
    (* "volume has lifecycle state %q" *)
| ErrFailedToProvision (volumeID : string) (cause : error)
    (* "failed to provision volume %q: %v" *)
| ErrNoVolumeID
    (* "volumeid annotation not found on PV" *)
| ErrWaitTimeout
    (* wait.ErrWaitTimeout *)
| ErrDeadlineExceeded
    (* context.DeadlineExceeded *)
| ErrSyntax (fn str : string)
    (* strconv's syntax error *)
| ErrService (statusCode : Z) (message : string)
    (* an error reported by the SDK for a call *).

#[global] Instance error_eq_dec : EqDecision error.
Proof. solve_decision. Defined.

(** ** The request-level rounding switch *)

Local Open Scope string_scope.

Definition OCIVolumeID : string := "ociVolumeID".
Definition OCIVolumeBackupID : string :=
  "volume.beta.kubernetes.io/oci-volume-source".
Definition FSType : string := "fsType".
Definition volumeRoundingUpEnabled : string := "volumeRoundingUpEnabled".
Definition ResourceStorage : string := "storage".

(** [strconv.ParseBool] of the Go standard library. *)
Definition ParseBool (str : string) : bool * option error :=
  if bool_decide (str ∈ ["1"; "t"; "T"; "true"; "TRUE"; "True"])
  then (true, None)
  else if bool_decide (str ∈ ["0"; "f"; "F"; "false"; "FALSE"; "False"])
  then (false, None)
  else (false, Some (ErrSyntax "ParseBool" str)).

(** [volumeRoundingEnabled] (block.go:135-143). *)
Definition volumeRoundingEnabled (param : gmap string string) : bool :=
  let volumeRounding := true in
  match param !! volumeRoundingUpEnabled with
  | Some volumeRoundingUpParam =>
      let '(enabled, err) := ParseBool volumeRoundingUpParam in
      if bool_decide (err = None) && negb enabled then false else volumeRounding
  | None => volumeRounding
  end.

Local Close Scope string_scope.

(** ** The orchestrator's object model *)

(** [resource.Quantity] is used through two of its methods only. *)
Class QuantityAPI (Quantity : Type) := {
  Value : Quantity → Z;             (* Quantity.Value(): an int64 *)
  Cmp : Quantity → Quantity → Z;    (* Quantity.Cmp(y): -1, 0 or 1 *)
}.

(** What the package imports from the repository's [pkg/provisioner] and
    [pkg/provisioner/plugin], whose sources are not part of this
    development: they are taken as given. *)
Class Imports := {
  GetPrefix : string;                     (* provisioner.GetPrefix() *)
  IsNotFound : option error → bool;       (* provisioner.IsNotFound(err) *)
  LabelZoneRegion : string;               (* plugin.LabelZoneRegion *)
  LabelZoneFailureDomain : string;        (* plugin.LabelZoneFailureDomain *)
  OCIProvisionerName : string;            (* plugin.OCIProvisionerName *)
}.

Section Objects.
Context {Quantity : Type}.

(** [v1.PersistentVolumeClaim], with [Spec.AccessModes] and
    [Spec.Resources.Requests] flattened. *)
Record PersistentVolumeClaim := {
  pvc_Name : string;
  pvc_Annotations : gmap string string;
  pvc_AccessModes : list PersistentVolumeAccessMode;
  pvc_Requests : gmap string Quantity;
}.

(** [controller.VolumeOptions]. *)
Record VolumeOptions := {
  PersistentVolumeReclaimPolicy : string;
  PVC : PersistentVolumeClaim;
  Parameters : gmap string string;
  MountOptions : list string;
}.

(** [v1.PersistentVolume], flattened the same way. *)
Record PersistentVolume := {
  pv_Name : string;
  pv_Annotations : gmap string string;
  pv_Labels : gmap string string;
  pv_ReclaimPolicy : string;
  pv_AccessModes : list PersistentVolumeAccessMode;
  pv_Capacity : gmap string Quantity;
  pv_FlexDriver : string;
  pv_FlexFSType : string;
  pv_MountOptions : list string;
}.
End Objects.
Arguments PersistentVolumeClaim : clear implicits.
Arguments VolumeOptions : clear implicits.
Arguments PersistentVolume : clear implicits.

(** [identity.AvailabilityDomain]. *)
Record AvailabilityDomain := { ad_Name : string }.

(** ** Contexts and the outside world *)

(** [time.Duration]: nanoseconds. *)
Definition Second : Z := 1000000000.

(** A [context.Context], as far as the package uses it: its deadline, an
    instant of the logical clock. *)
Record Context := { Deadline : option Z }.

Definition Background : Context := {| Deadline := None |}.

(** [context.WithTimeout(parent, timeout)] at instant [now]: the derived
    deadline is never later than the parent's. *)
Definition WithTimeout (parent : Context) (now timeout : Z) : Context :=
  {| Deadline := Some match Deadline parent with
                      | Some d => Z.min d (now + timeout)
                      | None => now + timeout
                      end |}.

(** [core.CreateVolumeDetails]; [SourceDetails] holds the backup's id. *)
Record CreateVolumeDetails := {
  AvailabilityDomainName : string;
  CompartmentId : string;
  DisplayName : string;
  SizeInMBs : Z;
  SourceDetails : option string;
}.

(** [core.Volume], as far as the package reads it.  The SDK's pointer
    fields ([Id] here, [Name] of the availability domain) are taken to be
    set, as the code dereferences them without a check. *)
Record Volume := { Id : string; LifecycleState : VolumeLifecycleState }.

(** [core.DeleteVolumeResponse]: the status code of the raw HTTP response,
    when there is one. *)
Record DeleteVolumeResponse := { RawResponse : option Z }.

Record InstanceMetadata := { Region : string }.

Definition StatusNotFound : Z := 404.

(** One entry per call that leaves the process. *)
Inductive Event :=
| EvCreateVolume (at_ : Z) (ctx : Context) (details : CreateVolumeDetails)
                 (reply : error + Volume)
| EvGetVolume (at_ : Z) (ctx : Context) (volumeID : string)
              (reply : error + VolumeLifecycleState)
| EvDeleteVolume (at_ : Z) (ctx : Context) (volumeID : string)
                 (reply : DeleteVolumeResponse * option error)
| EvMetadataGet (at_ : Z) (reply : error + InstanceMetadata).

Inductive Level := Info | Warn.

Record World := {
  now : Z;                          (* logical clock *)
  trace : list Event;               (* calls made so far, oldest first *)
  logs : list (Level * string);     (* log lines, oldest first *)
  environ : gmap string string;     (* the process environment *)
}.

(** The block-storage service behind the client: what it answers to a call
    given everything that happened before, and after how long. *)
Record BlockStorageService := {
  onCreateVolume : World → CreateVolumeDetails → Z * (error + Volume);
  onGetVolume : World → string → Z * (error + VolumeLifecycleState);
  onDeleteVolume : World → string → Z * (DeleteVolumeResponse * option error);
}.

(** [client.ProvisionerClient]. *)
Record ProvisionerClient := {
  CompartmentOCID : string;
  TenancyOCID : string;
  Timeout : Z;
  BlockStorage : BlockStorageService;
}.

(** [instancemeta.Interface]. *)
Record InstanceMeta := { onGet : World → error + InstanceMetadata }.

(** ** Computations in the world *)

Definition M (A : Type) : Type := World → A * World.

Definition ret {A} (a : A) : M A := λ w, (a, w).

Definition bind {A B} (m : M A) (k : A → M B) : M B :=
  λ w, let '(a, w1) := m w in k a w1.

Declare Scope world_scope.
Delimit Scope world_scope with world.
Notation "x ← y ; z" := (bind y (λ x, z))
  (at level 20, y at level 100, z at level 200, only parsing) : world_scope.
Notation "' x ← y ; z" := (bind y (λ x, z))
  (at level 20, x pattern, y at level 100, z at level 200, only parsing)
  : world_scope.
Notation "x ;; z" := (bind x (λ _, z))
  (at level 100, z at level 200, only parsing, right associativity)
  : world_scope.
Local Open Scope world_scope.

Definition clock : M Z := λ w, (now w, w).

Definition setNow (t : Z) (w : World) : World :=
  {| now := t; trace := trace w; logs := logs w; environ := environ w |}.

(** Waiting never moves the clock backwards. *)
Definition sleepUntil (t : Z) : M unit :=
  λ w, (tt, setNow (Z.max (now w) t) w).

Definition emit (e : Event) : M unit :=
  λ w, (tt, {| now := now w; trace := trace w ++ [e];
               logs := logs w; environ := environ w |}).

Definition logf (level : Level) (msg : string) : M unit :=
  λ w, (tt, {| now := now w; trace := trace w;
               logs := logs w ++ [(level, msg)]; environ := environ w |}).

(** [os.LookupEnv]. *)
Definition LookupEnv (key : string) : M (option string) :=
  λ w, (environ w !! key, w).

(** A call under a context: the service's answer arrives after its latency
    unless the context's deadline comes first, in which case the caller gets
    [cancelled] at the deadline (at once, when it has already passed). *)
Definition roundTrip {A} (ctx : Context) (served : World → Z * A)
    (cancelled : A) : M A :=
  λ w, let '(latency, reply) := served w in
       let done := now w + Z.max 0 latency in
       match Deadline ctx with
       | Some d =>
           if bool_decide (d ≤ done)
           then (cancelled, setNow (Z.max (now w) d) w)
           else (reply, setNow done w)
       | None => (reply, setNow done w)
       end.

(** The three methods of [client.BlockStorage()] the package calls. *)
Definition CreateVolume (c : ProvisionerClient) (ctx : Context)
    (details : CreateVolumeDetails) : M (error + Volume) :=
  at_ ← clock;
  reply ← roundTrip ctx (λ w, onCreateVolume (BlockStorage c) w details)
                    (inl ErrDeadlineExceeded);
  emit (EvCreateVolume at_ ctx details reply);;
  ret reply.

Definition GetVolume (c : ProvisionerClient) (ctx : Context)
    (volumeID : string) : M (error + VolumeLifecycleState) :=
  at_ ← clock;
  reply ← roundTrip ctx (λ w, onGetVolume (BlockStorage c) w volumeID)
                    (inl ErrDeadlineExceeded);
  emit (EvGetVolume at_ ctx volumeID reply);;
  ret reply.

Definition DeleteVolume (c : ProvisionerClient) (ctx : Context)
    (volumeID : string) : M (DeleteVolumeResponse * option error) :=
  at_ ← clock;
  reply ← roundTrip ctx (λ w, onDeleteVolume (BlockStorage c) w volumeID)
                    ({| RawResponse := None |}, Some ErrDeadlineExceeded);
  emit (EvDeleteVolume at_ ctx volumeID reply);;
  ret reply.

(** [metadata.Get()]. *)
Definition metadataGet (m : InstanceMeta) : M (error + InstanceMetadata) :=
  at_ ← clock;
  reply ← (λ w, (onGet m w, w));
  emit (EvMetadataGet at_ reply);;
  ret reply.

(** [wait.PollImmediate(interval, timeout, condition)] of the Kubernetes
    [wait] package.  [condition] is checked at once.  If that does not end
    the wait, a ticker of period [interval] and, unless [timeout] is zero, a
    timer of [timeout] are started, and [condition] is checked again on
    every tick that finds the caller waiting (a tick that falls into a
    running check is dropped), until it reports done or an error.  When the
    timer fires the library checks [condition] one last time and, if the
    wait is still not over, returns [ErrWaitTimeout]; when a tick and the
    timer fall on the same instant the tick is taken first.  With a zero
    [timeout] there is no timer and the wait goes on for as long as
    [condition] reports neither done nor an error.  [interval] is positive,
    as the ticker requires. *)

(** The first tick after the instant [t] of a ticker started at [start]. *)
Definition tickAfter (start interval t : Z) : Z :=
  start + ((t - start) ÷ interval + 1) * interval.

(** The check made once the timer has fired. *)
Definition lastCheck (condition : M (bool * option error)) : M (option error) :=
  '(ok, err) ← condition;
  match err with
  | Some e => ret (Some e)
  | None => if ok then ret None else ret (Some ErrWaitTimeout)
  end.

(** The wait under a timer that fires at [stop], after a check that did
    not end it; [ticks] is the number of ticks the ticker can still give
    before the timer fires. *)
Fixpoint pollTimed (ticks : nat) (start interval stop : Z)
    (condition : M (bool * option error)) : M (option error) :=
  t ← clock;
  match ticks with
  | O => sleepUntil stop;; lastCheck condition
  | S ticks' =>
      if bool_decide (stop < tickAfter start interval t)
      then sleepUntil stop;; lastCheck condition
      else
        sleepUntil (tickAfter start interval t);;
        '(ok, err) ← condition;
        match err with
        | Some e => ret (Some e)
        | None =>
            if ok then ret None
            else pollTimed ticks' start interval stop condition
        end
  end.

(** The wait without a timer, after a check that did not end it.  It may
    never end: it is followed for [fuel] ticks, and [None] says that it was
    still going on after them. *)
Fixpoint pollUntimed (fuel : nat) (start interval : Z)
    (condition : M (bool * option error)) : M (option (option error)) :=
  match fuel with
  | O => ret None
  | S fuel' =>
      t ← clock;
      sleepUntil (tickAfter start interval t);;
      '(ok, err) ← condition;
      match err with
      | Some e => ret (Some (Some e))
      | None =>
          if ok then ret (Some None)
          else pollUntimed fuel' start interval condition
      end
  end.

Definition PollImmediate (fuel : nat) (interval timeout : Z)
    (condition : M (bool * option error)) : M (option (option error)) :=
  '(ok, err) ← condition;
  match err with
  | Some e => ret (Some (Some e))
  | None =>
      if ok then ret (Some None)
      else
        start ← clock;
        if bool_decide (timeout = 0)
        then pollUntimed fuel start interval condition
        else
          result ← pollTimed (Z.to_nat (timeout ÷ interval)) start interval
                             (start + timeout) condition;
          ret (Some result)
  end.

(** ** The block provisioner *)

Section Block.
Context {Quantity : Type} `{!QuantityAPI Quantity} `{!Imports}.

Local Open Scope string_scope.

(** [blockProvisioner] (block.go:56-63); the logger writes to the world's
    log. *)
Record blockProvisioner := {
  client : ProvisionerClient;
  metadata : InstanceMeta;
  block_volumeRoundingEnabled : bool;
  minVolumeSize : Quantity;
  timeout : Z;
}.

(** [NewBlockProvisioner] (block.go:68-85). *)
Definition NewBlockProvisioner (client : ProvisionerClient)
    (metadata : InstanceMeta) (volumeRoundingEnabled : bool)
    (minVolumeSize : Quantity) (timeout : Z) : blockProvisioner :=
  {| client := client;
     metadata := metadata;
     block_volumeRoundingEnabled := volumeRoundingEnabled;
     minVolumeSize := minVolumeSize;
     timeout := timeout |}.

(** [resolveFSType] (block.go:91-97). *)
Definition resolveFSType (options : VolumeOptions Quantity) : string :=
  let fs := "ext4" in
  match Parameters options !! FSType with
  | Some fsType => fsType
  | None => fs
  end.

(** The closure [isVolumeReady] (block.go:104-123). *)
Definition isVolumeReady (block : blockProvisioner) (ctx : Context)
    (volumeID : string) : M (bool * option error) :=
  t ← clock;
  let ctx := WithTimeout ctx t (Timeout (client block)) in
  getVolumeResponse ← GetVolume (client block) ctx volumeID;
  match getVolumeResponse with
  | inl err => ret (false, Some err)
  | inr state =>
      match state with
      | Available => ret (true, None)
      | Faulty | Terminated | Terminating =>
          ret (false, Some (ErrLifecycle state))
      | _ => ret (false, None)
      end
  end.

(** The condition handed to [PollImmediate] (block.go:125-131). *)
Definition pollCondition (block : blockProvisioner) (ctx : Context)
    (volumeID : string) : M (bool * option error) :=
  '(ready, err) ← isVolumeReady block ctx volumeID;
  match err with
  | Some err => ret (false, Some (ErrFailedToProvision volumeID err))
  | None => ret (ready, None)
  end.

(** [waitForVolumeAvailable] (block.go:103-133).  [fuel] is the one of
    [PollImmediate]: it matters only when [timeout] is zero, and [None] is
    a wait that has not returned. *)
Definition waitForVolumeAvailable (fuel : nat) (block : blockProvisioner)
    (ctx : Context) (volumeID : string) (timeout : Z)
    : M (option (option error)) :=
  PollImmediate fuel (Second * 5) timeout (pollCondition block ctx volumeID).

(** The loop over the access modes (block.go:148-152): the error for the
    first mode that is not [ReadWriteOnce], if there is one. *)
Fixpoint checkAccessModes (accessModes : list PersistentVolumeAccessMode)
    : option error :=
  match accessModes with
  | [] => None
  | accessMode :: rest =>
      if bool_decide (accessMode ≠ ReadWriteOnce)
      then Some (ErrInvalidAccessMode accessMode)
      else checkAccessModes rest
  end.

Definition roundingWarning : string :=
  "Attempted to provision volume with a capacity less than the minimum. Rounding up to ensure volume creation.".

(** [Provision] (block.go:146-250).  [fuel] is handed to the wait, and
    [None] is a run whose wait has not returned. *)
Definition Provision (fuel : nat) (block : blockProvisioner)
    (options : VolumeOptions Quantity) (ad : AvailabilityDomain)
    : M (option (error + PersistentVolume Quantity)) :=
  let ctx := Background in
  match checkAccessModes (pvc_AccessModes (PVC options)) with
  | Some err => ret (Some (inl err))
  | None =>
  match pvc_Requests (PVC options) !! ResourceStorage with
  | None => ret (Some (inl ErrNoVolumeSize))
  | Some capacity =>
  let volSizeMB := roundUpSize (Value capacity) (1024 * 1024) in
  logf Info "Provisioning volume";;
  '(volSizeMB, capacity) ←
    (if volumeRoundingEnabled (Parameters options) then
       if block_volumeRoundingEnabled block
          && bool_decide (Cmp (minVolumeSize block) capacity = 1)
       then
         let volSizeMB :=
           roundUpSize (Value (minVolumeSize block)) (1024 * 1024) in
         logf Warn roundingWarning;;
         ret (volSizeMB, minVolumeSize block)
       else ret (volSizeMB, capacity)
     else ret (volSizeMB, capacity));
  let volumeDetails :=
    {| AvailabilityDomainName := ad_Name ad;
       CompartmentId := CompartmentOCID (client block);
       DisplayName := GetPrefix +:+ pvc_Name (PVC options);
       SizeInMBs := volSizeMB;
       SourceDetails := pvc_Annotations (PVC options) !! OCIVolumeBackupID |} in
  (if pvc_Annotations (PVC options) !! OCIVolumeBackupID is Some _
   then logf Info "Creating volume from backup." else ret tt);;
  t ← clock;
  let ctx := WithTimeout ctx t (Timeout (client block)) in
  created ← CreateVolume (client block) ctx volumeDetails;
  match created with
  | inl err => ret (Some (inl err))
  | inr newVolume =>
  logf Info "Waiting for volume to become available.";;
  waited ← waitForVolumeAvailable fuel block ctx (Id newVolume)
                                  (timeout block);
  match waited with
  | None => ret None
  | Some err =>
  match err with
  | Some err =>
      (* Delete the volume if it failed to get in a good state for us *)
      t ← clock;
      let ctx := WithTimeout ctx t (Timeout (client block)) in
      _ ← DeleteVolume (client block) ctx (Id newVolume);
      ret (Some (inl err))
  | None =>
  let filesystemType := resolveFSType options in
  env ← LookupEnv "OCI_SHORT_REGION";
  region ← match env with
           | Some region => ret (inr region)
           | None =>
               got ← metadataGet (metadata block);
               match got with
               | inl err => ret (inl err)
               | inr metadata => ret (inr (Region metadata))
               end
           end;
  match region with
  | inl err => ret (Some (inl err))
  | inr region =>
  ret (Some (inr
    {| pv_Name := Id newVolume;
       pv_Annotations := {[ OCIVolumeID := Id newVolume ]};
       pv_Labels := <[ LabelZoneRegion := region ]>
                      {[ LabelZoneFailureDomain := ad_Name ad ]};
       pv_ReclaimPolicy := PersistentVolumeReclaimPolicy options;
       pv_AccessModes := pvc_AccessModes (PVC options);
       pv_Capacity := {[ ResourceStorage := capacity ]};
       pv_FlexDriver := OCIProvisionerName;
       pv_FlexFSType := filesystemType;
       pv_MountOptions := MountOptions options |}))
  end end end end end end.

(** [Delete] (block.go:253-280). *)
Definition Delete (block : blockProvisioner)
    (volume : PersistentVolume Quantity) : M (option error) :=
  let ctx := Background in
  match pv_Annotations volume !! OCIVolumeID with
  | None => ret (Some ErrNoVolumeID)
  | Some volID =>
      logf Info "Deleting volume";;
      t ← clock;
      let ctx := WithTimeout ctx t (Timeout (client block)) in
      '(response, err) ← DeleteVolume (client block) ctx volID;
      if bool_decide (RawResponse response = Some StatusNotFound)
      then ret None
      else if IsNotFound err
      then logf Info "VolumeID was not found. Unable to delete it.";;
           ret None
      else ret err
  end.

End Block.
Arguments blockProvisioner : clear implicits.

(** ** Reading a trace *)

(** The volume ids of the delete calls in a stretch of trace. *)
Definition deleted (es : list Event) : list string :=
  omap (λ e, match e with
             | EvDeleteVolume _ _ volumeID _ => Some volumeID
             | _ => None
             end) es.

(** The status queries in a stretch of trace: which volume, what answer. *)
Definition queried (es : list Event)
    : list (string * (error + VolumeLifecycleState)) :=
  omap (λ e, match e with
             | EvGetVolume _ _ volumeID reply => Some (volumeID, reply)
             | _ => None
             end) es.

(** The status queries for [volumeID] and nothing else. *)
Definition isQueryOf (volumeID : string) (e : Event) : Prop :=
  match e with
  | EvGetVolume _ _ id _ => id = volumeID
  | _ => False
  end.

(** [w'] is [w] after the calls [es] and the log lines [ls]. *)
Record extends (w w' : World) (es : list Event)
    (ls : list (Level * string)) : Prop := {
  ext_trace : trace w' = trace w ++ es;
  ext_logs : logs w' = logs w ++ ls;
  ext_environ : environ w' = environ w;
  ext_now : now w ≤ now w';
}.

(** ** A scripted cloud, for running the code on concrete requests *)

Module Scenario.

Local Open Scope string_scope.

(** Quantities that are a whole number of bytes within [int64]. *)
#[global] Instance Bytes : QuantityAPI Z := {|
  Value := λ q, q;
  Cmp := λ x y, match (x ?= y)%Z with Lt => -1 | Eq => 0 | Gt => 1 end;
|}.

#[global] Instance imports : Imports := {|
  GetPrefix := "kube-";
  IsNotFound := λ err, match err with
                       | Some (ErrService 404 _) => true
                       | _ => false
                       end;
  LabelZoneRegion := "failure-domain.beta.kubernetes.io/region";
  LabelZoneFailureDomain := "failure-domain.beta.kubernetes.io/zone";
  OCIProvisionerName := "oracle/oci";
|}.

Definition GiB : Z := 1024 * 1024 * 1024.

Definition volumeOCID : string := "ocid1.volume.oc1.phx.abcdef".

Definition queriesSoFar (w : World) : nat :=
  length (queried (trace w)).

(** Creation succeeds; the k-th status query reports the k-th state of
    [script] and [Provisioning] once the script is used up; deletion
    answers [onDelete].  All answers are immediate. *)
Definition scripted (script : list VolumeLifecycleState)
    (onDelete : DeleteVolumeResponse * option error) : BlockStorageService :=
  {| onCreateVolume := λ _ _,
       (0, inr {| Id := volumeOCID; LifecycleState := Provisioning |});
     onGetVolume := λ w _,
       (0, inr (default Provisioning (script !! queriesSoFar w)));
     onDeleteVolume := λ _ _, (0, onDelete) |}.

Definition deleteOK : DeleteVolumeResponse * option error :=
  ({| RawResponse := Some 204 |}, None).
Definition deleteBroken : DeleteVolumeResponse * option error :=
  ({| RawResponse := Some 500 |}, Some (ErrService 500 "InternalError")).
Definition deleteGone : DeleteVolumeResponse * option error :=
  ({| RawResponse := Some 404 |}, Some (ErrService 404 "NotFound")).

Definition noMetadata : InstanceMeta :=
  {| onGet := λ _, inl (ErrService 503 "metadata service unavailable") |}.
Definition phoenix : InstanceMeta :=
  {| onGet := λ _, inr {| Region := "phx" |} |}.

Definition provisioner (service : BlockStorageService) (meta : InstanceMeta)
    (callTimeout overall : Z) (rounding : bool) (minimum : Z)
    : blockProvisioner Z :=
  {| client := {| CompartmentOCID := "ocid1.compartment.oc1..c";
                  TenancyOCID := "ocid1.tenancy.oc1..t";
                  Timeout := callTimeout;
                  BlockStorage := service |};
     metadata := meta;
     block_volumeRoundingEnabled := rounding;
     minVolumeSize := minimum;
     timeout := overall |}.

Definition request (modes : list PersistentVolumeAccessMode) (bytes : Z)
    (parameters : gmap string string) : VolumeOptions Z :=
  {| PersistentVolumeReclaimPolicy := "Delete";
     PVC := {| pvc_Name := "claim-1";
               pvc_Annotations := ∅;
               pvc_AccessModes := modes;
               pvc_Requests := {[ ResourceStorage := bytes ]} |};
     Parameters := parameters;
     MountOptions := [] |}.

Definition phx1 : AvailabilityDomain := {| ad_Name := "PHX-AD-1" |}.

Definition boot (env : gmap string string) : World :=
  {| now := 0; trace := []; logs := []; environ := env |}.

End Scenario.

(** ** The phases of [Provision]

    [Provision] is one long function; its three stretches are named here so
    that a run can be described by the world between them.  That
    [Provision] is their composition is [Provision_phases] below. *)

Section Phases.
Context {Quantity : Type} `{!QuantityAPI Quantity} `{!Imports}.

Local Open Scope string_scope.

(** block.go:146-198: validation, sizing and the creation call.  On
    success it yields the context of the creation call, the capacity to
    report and the new volume. *)
Definition provisionCreate (block : blockProvisioner Quantity)
    (options : VolumeOptions Quantity) (ad : AvailabilityDomain)
    : M (error + Context * Quantity * Volume) :=
  let ctx := Background in
  match checkAccessModes (pvc_AccessModes (PVC options)) with
  | Some err => ret (inl err)
  | None =>
  match pvc_Requests (PVC options) !! ResourceStorage with
  | None => ret (inl ErrNoVolumeSize)
  | Some capacity =>
  let volSizeMB := roundUpSize (Value capacity) (1024 * 1024) in
  logf Info "Provisioning volume";;
  '(volSizeMB, capacity) ←
    (if volumeRoundingEnabled (Parameters options) then
       if block_volumeRoundingEnabled block
          && bool_decide (Cmp (minVolumeSize block) capacity = 1)
       then
         let volSizeMB :=
           roundUpSize (Value (minVolumeSize block)) (1024 * 1024) in
         logf Warn roundingWarning;;
         ret (volSizeMB, minVolumeSize block)
       else ret (volSizeMB, capacity)
     else ret (volSizeMB, capacity));
  let volumeDetails :=
    {| AvailabilityDomainName := ad_Name ad;
       CompartmentId := CompartmentOCID (client block);
       DisplayName := GetPrefix +:+ pvc_Name (PVC options);
       SizeInMBs := volSizeMB;
       SourceDetails := pvc_Annotations (PVC options) !! OCIVolumeBackupID |} in
  (if pvc_Annotations (PVC options) !! OCIVolumeBackupID is Some _
   then logf Info "Creating volume from backup." else ret tt);;
  t ← clock;
  let ctx := WithTimeout ctx t (Timeout (client block)) in
  created ← CreateVolume (client block) ctx volumeDetails;
  match created with
  | inl err => ret (inl err)
  | inr newVolume =>
      logf Info "Waiting for volume to become available.";;
      ret (inr (ctx, capacity, newVolume))
  end end end.

(** block.go:200-209: the clean-up after a failed wait. *)
Definition provisionCleanup (block : blockProvisioner Quantity)
    (ctx : Context) (newVolume : Volume) (err : error)
    : M (error + PersistentVolume Quantity) :=
  t ← clock;
  let ctx := WithTimeout ctx t (Timeout (client block)) in
  _ ← DeleteVolume (client block) ctx (Id newVolume);
  ret (inl err).

(** block.go:222-247: the descriptor for [newVolume] in [region]. *)
Definition descriptor (options : VolumeOptions Quantity)
    (ad : AvailabilityDomain) (capacity : Quantity) (newVolume : Volume)
    (region : string) : PersistentVolume Quantity :=
  {| pv_Name := Id newVolume;
     pv_Annotations := {[ OCIVolumeID := Id newVolume ]};
     pv_Labels := <[ LabelZoneRegion := region ]>
                    {[ LabelZoneFailureDomain := ad_Name ad ]};
     pv_ReclaimPolicy := PersistentVolumeReclaimPolicy options;
     pv_AccessModes := pvc_AccessModes (PVC options);
     pv_Capacity := {[ ResourceStorage := capacity ]};
     pv_FlexDriver := OCIProvisionerName;
     pv_FlexFSType := resolveFSType options;
     pv_MountOptions := MountOptions options |}.

(** block.go:211-249: the region and the descriptor. *)
Definition provisionDescriptor (block : blockProvisioner Quantity)
    (options : VolumeOptions Quantity) (ad : AvailabilityDomain)
    (capacity : Quantity) (newVolume : Volume)
    : M (error + PersistentVolume Quantity) :=
  env ← LookupEnv "OCI_SHORT_REGION";
  region ← match env with
           | Some region => ret (inr region)
           | None =>
               got ← metadataGet (metadata block);
               match got with
               | inl err => ret (inl err)
               | inr metadata => ret (inr (Region metadata))
               end
           end;
  match region with
  | inl err => ret (inl err)
  | inr region => ret (inr (descriptor options ad capacity newVolume region))
  end.

(** The warnings in a stretch of log. *)
Definition warnings (ls : list (Level * string)) : list string :=
  omap (λ l, match l.1 with Warn => Some l.2 | Info => None end) ls.

(** The status query a poll makes when it starts in world [w]
    (block.go:105-109). *)
Definition statusQuery (block : blockProvisioner Quantity) (ctx : Context)
    (volumeID : string) (w : World)
    : (error + VolumeLifecycleState) * World :=
  GetVolume (client block)
    (WithTimeout ctx (now w) (Timeout (client block))) volumeID w.

(** The delete call [Delete] makes for [volID] when it starts in world
    [w] (block.go:260-268). *)
Definition deleteCall (block : blockProvisioner Quantity) (volID : string)
    (w : World) : (DeleteVolumeResponse * option error) * World :=
  DeleteVolume (client block)
    (WithTimeout Background (now w) (Timeout (client block))) volID
    (logf Info "Deleting volume" w).2.

(** The capacity [Provision] works with after the floor policy
    (block.go:168-174). *)
Definition effectiveCapacity (block : blockProvisioner Quantity)
    (options : VolumeOptions Quantity) (capacity : Quantity) : Quantity :=
  if volumeRoundingEnabled (Parameters options)
     && block_volumeRoundingEnabled block
     && bool_decide (Cmp (minVolumeSize block) capacity = 1)
  then minVolumeSize block else capacity.

(** The same provisioner in front of a service that answers deletions
    with [onDelete]. *)
Definition withDelete (block : blockProvisioner Quantity)
    (onDelete : World → string → Z * (DeleteVolumeResponse * option error))
    : blockProvisioner Quantity :=
  {| client :=
       {| CompartmentOCID := CompartmentOCID (client block);
          TenancyOCID := TenancyOCID (client block);
          Timeout := Timeout (client block);
          BlockStorage :=
            {| onCreateVolume := onCreateVolume (BlockStorage (client block));
               onGetVolume := onGetVolume (BlockStorage (client block));
               onDeleteVolume := onDelete |} |};
     metadata := metadata block;
     block_volumeRoundingEnabled := block_volumeRoundingEnabled block;
     minVolumeSize := minVolumeSize block;
     timeout := timeout block |}.

End Phases.

(** ** Volume names *)

(** [strings.Split(s, sep)] of the Go standard library, for a separator of
    one byte: the stretches of [s] between the occurrences of [sep], in
    order; a string without the separator is its own single part. *)
Fixpoint Split (s : string) (sep : ascii) : list string :=
  match s with
  | EmptyString => [EmptyString]
  | String c rest =>
      if bool_decide (c = sep) then EmptyString :: Split rest sep
      else match Split rest sep with
           | [] => [String c EmptyString]
           | part :: parts => String c part :: parts
           end
  end.

(** [strings.Join(parts, sep)], for the same separators. *)
Fixpoint Join (parts : list string) (sep : ascii) : string :=
  match parts with
  | [] => EmptyString
  | [part] => part
  | part :: rest => (part +:+ String sep (Join rest sep))%string
  end.

(** [strings.Count(s, sep)], for the same separators. *)
Fixpoint Count (s : string) (sep : ascii) : nat :=
  match s with
  | EmptyString => 0
  | String c rest =>
      if bool_decide (c = sep) then S (Count rest sep) else Count rest sep
  end.

(** [mapVolumeIDToName] (block.go:87-89).  Indexing past the end of the
    slice panics: [None]. *)
Definition mapVolumeIDToName (volumeID : string) : option string :=
  Split volumeID "."%char !! 4%nat.

(** ** Reading a trace, continued *)

(** A status query for [volumeID], issued no earlier than [since], under
    the context the poll derives from [ctx] at that instant. *)
Definition isQueryUnder (ctx : Context) (callTimeout : Z)
    (volumeID : string) (since : Z) (e : Event) : Prop :=
  match e with
  | EvGetVolume at_ c id _ =>
      id = volumeID ∧ since ≤ at_ ∧ c = WithTimeout ctx at_ callTimeout
  | _ => False
  end.

(** A call to the block-storage service made under the deadline [d]; the
    metadata query takes no context. *)
Definition underDeadline (d : Z) (e : Event) : Prop :=
  match e with
  | EvCreateVolume _ c _ _ | EvGetVolume _ c _ _ | EvDeleteVolume _ c _ _ =>
      Deadline c = Some d
  | EvMetadataGet _ _ => True
  end.

(** A status query that was answered with a state was issued before the
    deadline of its context, if it had one. *)
Definition inTime (e : Event) : Prop :=
  match e with
  | EvGetVolume at_ c _ (inr _) => ∀ d, Deadline c = Some d → at_ < d
  | _ => True
  end.

(** The lifecycle states on which the poll neither succeeds nor fails. *)
Definition pending (state : VolumeLifecycleState) : Prop :=
  state = Provisioning ∨ state = Restoring.

(** The informational lines in a stretch of log. *)
Definition infos (ls : list (Level * string)) : list string :=
  omap (λ l, match l.1 with Info => Some l.2 | Warn => None end) ls.

(** ** A service that refuses to create volumes *)

Module Outage.

(** Creation is refused at once; nothing else is scripted. *)
Definition refusing : BlockStorageService :=
  {| onCreateVolume := λ _ _, (0, inl (ErrService 400 "LimitExceeded"));
     onGetVolume := λ _ _, (0, inr Provisioning);
     onDeleteVolume := λ _ _, (0, Scenario.deleteOK) |}.

(** A request like [Scenario.request] that names a backup to restore. *)
Definition restore (bytes : Z) (backup : string) : VolumeOptions Z :=
  {| PersistentVolumeReclaimPolicy := "Retain";
     PVC := {| pvc_Name := "claim-2";
               pvc_Annotations := {[ OCIVolumeBackupID := backup ]};
               pvc_AccessModes := [ReadWriteOnce];
               pvc_Requests := {[ ResourceStorage := bytes ]} |};
     Parameters := {[ FSType := "xfs"%string ]};
     MountOptions := ["noatime"%string] |}.

(** A request without a storage quantity. *)
Definition unsized : VolumeOptions Z :=
  {| PersistentVolumeReclaimPolicy := "Delete";
     PVC := {| pvc_Name := "claim-3";
               pvc_Annotations := ∅;
               pvc_AccessModes := [ReadWriteOnce];
               pvc_Requests := ∅ |};
     Parameters := ∅;
     MountOptions := [] |}.

End Outage.

(** What a wait returns when [final] is the answer to its last status
    query. *)
Definition settles (volumeID : string)
    (final : error + VolumeLifecycleState) (result : option error) : Prop :=
  match final with
  | inl cause => result = Some (ErrFailedToProvision volumeID cause)
  | inr Available => result = None
  | inr Provisioning | inr Restoring => result = Some ErrWaitTimeout
  | inr state =>
      result = Some (ErrFailedToProvision volumeID (ErrLifecycle state))
  end.

(** What one check of the poll condition reports for the answer [reply]
    to its status query (block.go:110-130). *)
Definition verdict (volumeID : string)
    (reply : error + VolumeLifecycleState) : bool * option error :=
  match reply with
  | inl err => (false, Some (ErrFailedToProvision volumeID err))
  | inr Available => (true, None)
  | inr Provisioning | inr Restoring => (false, None)
  | inr state =>
      (false, Some (ErrFailedToProvision volumeID (ErrLifecycle state)))
  end.

(** [es] are the calls of a stretch of a wait for [volumeID] under [ctx]
    that leads from [w] to [w'] with [outcome]: status queries only, those
    answered with a state issued before their deadline, each but the last
    answered with a pending state; when the stretch ends the wait, the last
    answer settles it. *)
Definition follows (ctx : Context) (callTimeout : Z) (volumeID : string)
    (w : World) (es : list Event) (outcome : option (option error))
    (w' : World) : Prop :=
  extends w w' es [] ∧
  Forall (isQueryUnder ctx callTimeout volumeID (now w)) es ∧
  Forall inTime es ∧
  ∃ waiting,
    Forall pending waiting ∧
    match outcome with
    | Some result =>
        ∃ final,
          queried es =
            ((λ state, (volumeID, inr state)) <$> waiting)
              ++ [(volumeID, final)] ∧
          settles volumeID final result
    | None => queried es = (λ state, (volumeID, inr state)) <$> waiting
    end.

Arguments follows : simpl never.

(** ** A service that answers slowly *)

Module Slow.


End Slow.

(** * Properties *)

(** ** Size computation *)

Section Int64Facts.
Import Int64.

Lemma wrap_id z : InRange z → wrap z = z.
Proof.
  unfold InRange, MinInt64, MaxInt64, wrap. intros Hz.
  rewrite Z.mod_small; lia.
Qed.

(** Intermediate overflow is harmless as long as the end result fits. *)
Lemma wrap_wrap_add a b : wrap (wrap a + b) = wrap (a + b).
Proof.
  unfold wrap. f_equal.
  replace ((a + 2 ^ 63) `mod` 2 ^ 64 - 2 ^ 63 + b + 2 ^ 63)
    with ((a + 2 ^ 63) `mod` 2 ^ 64 + b) by lia.
  rewrite Zplus_mod_idemp_l. f_equal. lia.
Qed.

Lemma roundUpSize_exact C U :
  0 ≤ C → 0 < U → C + U - 1 ≤ MaxInt64 →
  roundUpSize C U = (C + U - 1) `div` U.
Proof.
  intros HC HU Hfit. unfold roundUpSize, div, sub, add.
  replace (wrap (C + U) - 1) with (wrap (C + U) + -1) by lia.
  rewrite wrap_wrap_add.
  rewrite (wrap_id (C + U + -1)) by (unfold InRange, MinInt64, MaxInt64 in *; lia).
  rewrite Z.quot_div_nonneg by lia.
  replace (C + U + -1) with (C + U - 1) by lia.
  apply wrap_id. unfold InRange, MinInt64, MaxInt64 in *.
  split.
  - pose proof (Z.div_pos (C + U - 1) U). lia.
  - pose proof (Z.div_le_upper_bound (C + U - 1) U (C + U - 1)). nia.
Qed.
End Int64Facts.

(** C4, as stated, fails: a request of [MaxInt64] bytes overflows the
    addition and the unit count comes out negative. *)
Lemma roundUpSize_overflow :
  0 ≤ Int64.MaxInt64 ∧ 0 < 1024 * 1024 ∧
  roundUpSize Int64.MaxInt64 (1024 * 1024) = -8796093022207 ∧
  ¬ (roundUpSize Int64.MaxInt64 (1024 * 1024) * (1024 * 1024)
       >= Int64.MaxInt64).
Proof. vm_compute. repeat split; try discriminate. intros H; now apply H. Qed.

(** C4 (amended): for every capacity [C >= 0] and unit size [U > 0] whose
    sum [C + U - 1] still fits in an [int64], the units cover the request,
    [roundUpSize C U * U >= C], without a whole unit of excess,
    [roundUpSize C U * U < C + U]; and no bytes give no units. *)
Theorem roundUpSize_bounds C U :
  0 ≤ C → 0 < U → C + U - 1 ≤ Int64.MaxInt64 →
  roundUpSize C U * U >= C ∧
  roundUpSize C U * U < C + U ∧
  (C = 0 → roundUpSize C U = 0).
Proof.
  intros HC HU Hfit. rewrite roundUpSize_exact by assumption.
  pose proof (Z.div_mod (C + U - 1) U ltac:(lia)) as Hdm.
  pose proof (Z.mod_pos_bound (C + U - 1) U HU) as Hmod.
  repeat split; nia.
Qed.

Lemma roundUpSize_bounds_witness :
  roundUpSize (40 * Scenario.GiB) (1024 * 1024) * (1024 * 1024)
    >= 40 * Scenario.GiB ∧
  roundUpSize (40 * Scenario.GiB) (1024 * 1024) * (1024 * 1024)
    < 40 * Scenario.GiB + 1024 * 1024 ∧
  (40 * Scenario.GiB = 0 → roundUpSize (40 * Scenario.GiB) (1024 * 1024) = 0).
Proof.
  apply (roundUpSize_bounds (40 * Scenario.GiB) (1024 * 1024));
    vm_compute; congruence.
Defined.

(** ** The request-level rounding switch *)

Lemma ParseBool_false str :
  ParseBool str = (false, None) ↔
  str ∈ ["0"; "f"; "F"; "false"; "FALSE"; "False"]%string.
Proof.
  unfold ParseBool.
  destruct (bool_decide (str ∈ ["1"; "t"; "T"; "true"; "TRUE"; "True"]%string))
    eqn:Htrue;
    destruct (bool_decide (str ∈ ["0"; "f"; "F"; "false"; "FALSE"; "False"]%string))
      eqn:Hfalse.
  - apply bool_decide_eq_true in Htrue.
    split; [discriminate|]. intros _. exfalso.
    repeat (apply elem_of_cons in Htrue as [->|Htrue];
            [vm_compute in Hfalse; discriminate|]).
    by apply elem_of_nil in Htrue.
  - apply bool_decide_eq_false in Hfalse. split; [discriminate | tauto].
  - apply bool_decide_eq_true in Hfalse. tauto.
  - apply bool_decide_eq_false in Hfalse. split; [discriminate | tauto].
Qed.

(** C10: the request-level switch is off only when the parameters carry
    the key [volumeRoundingUpEnabled] with a value that [ParseBool] accepts
    and reads as false; without the key, with a value that does not parse,
    or with one that parses to true, rounding stays enabled. *)
Theorem volumeRoundingEnabled_false_iff (param : gmap string string) :
  (volumeRoundingEnabled param = false ↔
   ∃ v, param !! volumeRoundingUpEnabled = Some v ∧
        ParseBool v = (false, None)) ∧
  (volumeRoundingEnabled param = true ↔
   param !! volumeRoundingUpEnabled = None ∨
   ∃ v, param !! volumeRoundingUpEnabled = Some v ∧
        ((ParseBool v).2 ≠ None ∨ (ParseBool v).1 = true)).
Proof.
  unfold volumeRoundingEnabled.
  destruct (param !! volumeRoundingUpEnabled) as [v|]; simpl.
  - destruct (ParseBool v) as [enabled err] eqn:E.
    destruct err as [e|], enabled; simpl.
    all: split; split; try discriminate; try done.
    all: try (intros _; first [exists v | right; exists v]; rewrite E; simpl;
              split; [done|]; first [done | by left | by right]).
    all: intros H';
      repeat match goal with
             | H : _ ∨ _ |- _ => destruct H
             | H : ∃ _, _ |- _ => destruct H
             | H : _ ∧ _ |- _ => destruct H
             end;
      simplify_eq; rewrite ?E in *; simpl in *; congruence.
  - split; split; try done; eauto. intros (? & ? & _). done.
Qed.

(** ** Worlds *)

Lemma extends_refl w : extends w w [] [].
Proof. split; rewrite ?app_nil_r; (reflexivity || lia). Qed.

Lemma extends_trans w1 w2 w3 es1 ls1 es2 ls2 :
  extends w1 w2 es1 ls1 → extends w2 w3 es2 ls2 →
  extends w1 w3 (es1 ++ es2) (ls1 ++ ls2).
Proof.
  intros [T1 L1 E1 N1] [T2 L2 E2 N2]. split.
  - rewrite T2, T1. by rewrite app_assoc.
  - rewrite L2, L1. by rewrite app_assoc.
  - congruence.
  - lia.
Qed.

Lemma roundTrip_extends {A} ctx served (cancelled : A) w :
  extends w (roundTrip ctx served cancelled w).2 [] [].
Proof.
  unfold roundTrip. destruct (served w) as [latency reply].
  destruct (Deadline ctx) as [d|]; [case_bool_decide|]; simpl;
    (split; simpl; rewrite ?app_nil_r; (reflexivity || lia)).
Qed.

Lemma logf_extends level msg w :
  extends w (logf level msg w).2 [] [(level, msg)].
Proof. split; simpl; rewrite ?app_nil_r; (reflexivity || lia). Qed.

Lemma emit_extends e w : extends w (emit e w).2 [e] [].
Proof. split; simpl; rewrite ?app_nil_r; (reflexivity || lia). Qed.

Lemma sleepUntil_extends t w : extends w (sleepUntil t w).2 [] [].
Proof. split; simpl; rewrite ?app_nil_r; (reflexivity || lia). Qed.

Lemma CreateVolume_extends c ctx details w :
  extends w (CreateVolume c ctx details w).2
    [EvCreateVolume (now w) ctx details (CreateVolume c ctx details w).1] [].
Proof.
  unfold CreateVolume, bind, clock, ret.
  pose proof (roundTrip_extends ctx
    (λ w, onCreateVolume (BlockStorage c) w details) (inl ErrDeadlineExceeded) w)
    as Hrt.
  destruct (roundTrip _ _ _ w) as [reply w1]. simpl in *.
  apply (extends_trans _ _ _ [] [] _ [] Hrt), emit_extends.
Qed.

Lemma GetVolume_extends c ctx volumeID w :
  extends w (GetVolume c ctx volumeID w).2
    [EvGetVolume (now w) ctx volumeID (GetVolume c ctx volumeID w).1] [].
Proof.
  unfold GetVolume, bind, clock, ret.
  pose proof (roundTrip_extends ctx
    (λ w, onGetVolume (BlockStorage c) w volumeID) (inl ErrDeadlineExceeded) w)
    as Hrt.
  destruct (roundTrip _ _ _ w) as [reply w1]. simpl in *.
  apply (extends_trans _ _ _ [] [] _ [] Hrt), emit_extends.
Qed.

Lemma DeleteVolume_extends c ctx volumeID w :
  extends w (DeleteVolume c ctx volumeID w).2
    [EvDeleteVolume (now w) ctx volumeID (DeleteVolume c ctx volumeID w).1] [].
Proof.
  unfold DeleteVolume, bind, clock, ret.
  pose proof (roundTrip_extends ctx
    (λ w, onDeleteVolume (BlockStorage c) w volumeID)
    ({| RawResponse := None |}, Some ErrDeadlineExceeded) w) as Hrt.
  destruct (roundTrip _ _ _ w) as [reply w1]. simpl in *.
  apply (extends_trans _ _ _ [] [] _ [] Hrt), emit_extends.
Qed.

Lemma metadataGet_extends m w :
  extends w (metadataGet m w).2 [EvMetadataGet (now w) (metadataGet m w).1] [].
Proof. unfold metadataGet, bind, clock, ret. simpl. apply emit_extends. Qed.

(** ** Traces *)

Lemma deleted_app es1 es2 : deleted (es1 ++ es2) = deleted es1 ++ deleted es2.
Proof. apply omap_app. Qed.


Lemma deleted_queries volumeID es :
  Forall (isQueryOf volumeID) es → deleted es = [].
Proof.
  induction 1 as [|[] es Hq _ IH]; cbn in *; done.
Qed.

Lemma isQueryUnder_since ctx callTimeout volumeID since since' es :
  since' ≤ since →
  Forall (isQueryUnder ctx callTimeout volumeID since) es →
  Forall (isQueryUnder ctx callTimeout volumeID since') es.
Proof.
  intros Hle Hall. eapply Forall_impl; [exact Hall|].
  intros [] He; simpl in *; try done.
  destruct He as (? & ? & ?). repeat split; (assumption || lia).
Qed.

Lemma isQueryUnder_isQueryOf ctx callTimeout volumeID since es :
  Forall (isQueryUnder ctx callTimeout volumeID since) es →
  Forall (isQueryOf volumeID) es.
Proof.
  intros Hall. eapply Forall_impl; [exact Hall|].
  intros [] He; simpl in *; tauto.
Qed.

Lemma queried_queries volumeID es :
  Forall (isQueryOf volumeID) es → length (queried es) = length es.
Proof.
  induction 1 as [|e es He _ IH]; [reflexivity|].
  destruct e; simpl in He; try done.
  unfold queried in *. cbn. by rewrite IH.
Qed.

Lemma follows_none ctx callTimeout volumeID w :
  follows ctx callTimeout volumeID w [] None w.
Proof.
  split; [apply extends_refl|]. split; [constructor|]. split; [constructor|].
  exists []. split; [constructor | reflexivity].
Qed.

Lemma follows_skip ctx callTimeout volumeID w t es outcome w' :
  now w ≤ t →
  follows ctx callTimeout volumeID (setNow t w) es outcome w' →
  follows ctx callTimeout volumeID w es outcome w'.
Proof.
  intros Hle ([T L E N] & Hall & Hrest). simpl in *.
  split; [by split; simpl; try lia|]. split; [|exact Hrest].
  by apply (isQueryUnder_since _ _ _ t).
Qed.

(** ** The availability poll *)

Section Poll.
Context {Quantity : Type} `{!QuantityAPI Quantity} `{!Imports}.
Implicit Types (block : blockProvisioner Quantity) (w : World).

Lemma isVolumeReady_run block ctx volumeID w :
  isVolumeReady block ctx volumeID w =
  (match (statusQuery block ctx volumeID w).1 with
   | inl err => (false, Some err)
   | inr Available => (true, None)
   | inr Faulty => (false, Some (ErrLifecycle Faulty))
   | inr Terminated => (false, Some (ErrLifecycle Terminated))
   | inr Terminating => (false, Some (ErrLifecycle Terminating))
   | inr _ => (false, None)
   end, (statusQuery block ctx volumeID w).2).
Proof.
  unfold isVolumeReady, statusQuery, bind, clock, ret.
  destruct (GetVolume _ _ _ w) as [[err|[]] w1]; reflexivity.
Qed.

Lemma pollCondition_run block ctx volumeID w :
  pollCondition block ctx volumeID w =
  (verdict volumeID (statusQuery block ctx volumeID w).1,
   (statusQuery block ctx volumeID w).2).
Proof.
  unfold pollCondition, bind at 1. rewrite isVolumeReady_run.
  destruct (statusQuery block ctx volumeID w) as [[err|[]] w1]; reflexivity.
Qed.

Lemma statusQuery_extends block ctx volumeID w :
  extends w (statusQuery block ctx volumeID w).2
    [EvGetVolume (now w) (WithTimeout ctx (now w) (Timeout (client block)))
       volumeID (statusQuery block ctx volumeID w).1] [].
Proof. apply GetVolume_extends. Qed.

(** A status query that comes back with a state was not cancelled: its
    deadline was still ahead when it was issued. *)
Lemma statusQuery_inTime block ctx volumeID w :
  inTime (EvGetVolume (now w)
            (WithTimeout ctx (now w) (Timeout (client block))) volumeID
            (statusQuery block ctx volumeID w).1).
Proof.
  unfold statusQuery, GetVolume, bind, clock, ret, roundTrip, emit.
  destruct (onGetVolume _ _ _) as [latency reply].
  unfold WithTimeout at 2. cbn [Deadline].
  case_bool_decide as Hlate; cbn [fst snd]; [exact I|].
  destruct reply; [exact I|]. unfold WithTimeout. cbn [Deadline].
  intros d' [= <-]. lia.
Qed.

(** Under a context whose deadline has passed, the status query fails
    without reaching the service. *)
Lemma statusQuery_expired block ctx volumeID w d :
  Deadline ctx = Some d → d ≤ now w →
  (statusQuery block ctx volumeID w).1 = inl ErrDeadlineExceeded.
Proof.
  intros Hd Hpast. unfold statusQuery, GetVolume, bind, clock, ret.
  unfold roundTrip, WithTimeout. rewrite Hd. cbn [Deadline].
  destruct (onGetVolume _ _ _) as [latency reply].
  rewrite bool_decide_eq_true_2; [reflexivity|]. lia.
Qed.

(** A check whose answer settles the wait. *)
Lemma follows_last block ctx volumeID w result :
  settles volumeID (statusQuery block ctx volumeID w).1 result →
  follows ctx (Timeout (client block)) volumeID w
    [EvGetVolume (now w) (WithTimeout ctx (now w) (Timeout (client block)))
       volumeID (statusQuery block ctx volumeID w).1]
    (Some result) (statusQuery block ctx volumeID w).2.
Proof.
  intros Hsettles. split; [apply statusQuery_extends|]. split; [|split].
  - repeat constructor. lia.
  - constructor; [apply statusQuery_inTime | constructor].
  - exists []. split; [constructor|]. eexists. split; [reflexivity|].
    exact Hsettles.
Qed.

(** A check answered with a pending state, and what follows it. *)
Lemma follows_more block ctx volumeID w state es outcome w' :
  (statusQuery block ctx volumeID w).1 = inr state → pending state →
  follows ctx (Timeout (client block)) volumeID
    (statusQuery block ctx volumeID w).2 es outcome w' →
  follows ctx (Timeout (client block)) volumeID w
    (EvGetVolume (now w) (WithTimeout ctx (now w) (Timeout (client block)))
       volumeID (inr state) :: es)
    outcome w'.
Proof.
  intros Hstate Hpending (Hext & Hall & Htime & waiting & Hwaiting & Hout).
  pose proof (statusQuery_extends block ctx volumeID w) as Hq.
  pose proof (statusQuery_inTime block ctx volumeID w) as Hin.
  rewrite Hstate in Hq, Hin. split; [|split; [|split]].
  - replace (@nil (Level * string)) with (@nil (Level * string) ++ [])
      by reflexivity.
    apply (extends_trans _ _ _ [_] [] es [] Hq Hext).
  - constructor; [repeat split; lia|].
    apply (isQueryUnder_since _ _ _ (now (statusQuery block ctx volumeID w).2));
      [apply (ext_now _ _ _ _ Hq) | exact Hall].
  - by constructor.
  - exists (state :: waiting). split; [by constructor|].
    destruct outcome as [result|].
    + destruct Hout as (final & Hqs & Hsettles). exists final.
      split; [|exact Hsettles]. unfold queried in *. cbn. by rewrite Hqs.
    + unfold queried in *. cbn. by rewrite Hout.
Qed.

Lemma bind_clock {A} (k : Z → M A) w : bind clock k w = k (now w) w.
Proof. reflexivity. Qed.

Lemma bind_sleepUntil {A} t (k : unit → M A) w :
  bind (sleepUntil t) k w = k tt (setNow (Z.max (now w) t) w).
Proof. reflexivity. Qed.

Lemma bind_pollCondition {A} block ctx volumeID
    (k : bool * option error → M A) w :
  bind (pollCondition block ctx volumeID) k w =
  k (verdict volumeID (statusQuery block ctx volumeID w).1)
    (statusQuery block ctx volumeID w).2.
Proof. unfold bind. by rewrite pollCondition_run. Qed.

Lemma lastCheck_follows block ctx volumeID w :
  let run := lastCheck (pollCondition block ctx volumeID) w in
  ∃ es, follows ctx (Timeout (client block)) volumeID w es (Some run.1) run.2 ∧
        length es = 1%nat.
Proof.
  intros run. subst run. unfold lastCheck. rewrite bind_pollCondition.
  pose proof (follows_last block ctx volumeID w) as Hlast.
  destruct (statusQuery block ctx volumeID w) as [[err|[]] w1]; simpl in *;
    (eexists; split; [apply Hlast; reflexivity | reflexivity]).
Qed.

Lemma pollTimed_follows block ctx volumeID start interval stop ticks : ∀ w,
  let run := pollTimed ticks start interval stop
               (pollCondition block ctx volumeID) w in
  ∃ es, follows ctx (Timeout (client block)) volumeID w es (Some run.1) run.2 ∧
        (1 ≤ length es ≤ S ticks)%nat.
Proof.
  assert (∀ w, ∃ es,
             follows ctx (Timeout (client block)) volumeID w es
               (Some ((sleepUntil stop;;
                       lastCheck (pollCondition block ctx volumeID)) w).1)
               ((sleepUntil stop;;
                 lastCheck (pollCondition block ctx volumeID)) w).2 ∧
             length es = 1%nat) as Hfinal.
  { intros w. rewrite bind_sleepUntil.
    destruct (lastCheck_follows block ctx volumeID
                (setNow (Z.max (now w) stop) w)) as (es & Hes & Hlen).
    exists es. split; [|exact Hlen].
    apply (follows_skip _ _ _ _ (Z.max (now w) stop)); [lia | exact Hes]. }
  induction ticks as [|ticks IH]; intros w run; subst run;
    cbn [pollTimed]; rewrite bind_clock.
  - destruct (Hfinal w) as (es & Hes & Hlen). exists es. split; [exact Hes|lia].
  - case_bool_decide as Hfire.
    { destruct (Hfinal w) as (es & Hes & Hlen). exists es.
      split; [exact Hes|lia]. }
    rewrite bind_sleepUntil, bind_pollCondition.
    set (w2 := setNow (Z.max (now w) (tickAfter start interval (now w))) w).
    pose proof (follows_last block ctx volumeID w2) as Hlast.
    pose proof (follows_more block ctx volumeID w2) as Hmore.
    destruct (statusQuery block ctx volumeID w2) as [[err|state] w3];
      simpl in Hlast, Hmore |- *.
    + eexists. split; [apply (follows_skip _ _ _ _
                                (Z.max (now w) (tickAfter start interval (now w))));
                       [lia|]; apply Hlast; reflexivity
                      | simpl; lia].
    + destruct state; simpl;
        try (eexists;
             (split;
              [apply (follows_skip _ _ _ _
                        (Z.max (now w) (tickAfter start interval (now w))));
               [lia|]; apply Hlast; reflexivity
              | simpl; lia])).
      all: destruct (IH w3) as (es & Hes & Hlen);
        eexists (_ :: es); (split; [|simpl; lia]);
        apply (follows_skip _ _ _ _
                 (Z.max (now w) (tickAfter start interval (now w)))); [lia|];
        apply Hmore; [reflexivity | (by left) || (by right) | exact Hes].
Qed.

Lemma pollUntimed_follows block ctx volumeID start interval fuel : ∀ w,
  let run := pollUntimed fuel start interval
               (pollCondition block ctx volumeID) w in
  ∃ es, follows ctx (Timeout (client block)) volumeID w es run.1 run.2 ∧
        (length es ≤ fuel)%nat ∧
        (run.1 = None → length es = fuel).
Proof.
  induction fuel as [|fuel IH]; intros w run; subst run; cbn [pollUntimed].
  - exists []. split; [apply follows_none|]. by split.
  - rewrite bind_clock, bind_sleepUntil, bind_pollCondition.
    set (w2 := setNow (Z.max (now w) (tickAfter start interval (now w))) w).
    pose proof (follows_last block ctx volumeID w2) as Hlast.
    pose proof (follows_more block ctx volumeID w2) as Hmore.
    destruct (statusQuery block ctx volumeID w2) as [[err|state] w3];
      simpl in Hlast, Hmore |- *.
    + eexists. split; [apply (follows_skip _ _ _ _
                                (Z.max (now w) (tickAfter start interval (now w))));
                       [lia|]; apply Hlast; reflexivity
                      | simpl; split; [lia|discriminate]].
    + destruct state; simpl;
        try (eexists;
             (split;
              [apply (follows_skip _ _ _ _
                        (Z.max (now w) (tickAfter start interval (now w))));
               [lia|]; apply Hlast; reflexivity
              | simpl; split; [lia|discriminate]])).
      all: destruct (IH w3) as (es & Hes & Hlen & Hnone);
        eexists (_ :: es);
        (split; [|simpl; split; [lia | intros Hn; by rewrite (Hnone Hn)]]);
        apply (follows_skip _ _ _ _
                 (Z.max (now w) (tickAfter start interval (now w)))); [lia|];
        apply Hmore; [reflexivity | (by left) || (by right) | exact Hes].
Qed.

(** Every wait, by its calls. *)
Lemma waitForVolumeAvailable_follows fuel block ctx volumeID timeout w :
  let run := waitForVolumeAvailable fuel block ctx volumeID timeout w in
  ∃ es, follows ctx (Timeout (client block)) volumeID w es run.1 run.2 ∧
        (1 ≤ length es)%nat ∧
        (timeout ≠ 0 →
         is_Some run.1 ∧
         (length es ≤ 2 + Z.to_nat (timeout ÷ (Second * 5)))%nat) ∧
        (timeout = 0 →
         (length es ≤ S fuel)%nat ∧ (run.1 = None → length es = S fuel)).
Proof.
  intros run. subst run. unfold waitForVolumeAvailable, PollImmediate.
  rewrite bind_pollCondition.
  pose proof (follows_last block ctx volumeID w) as Hlast.
  pose proof (follows_more block ctx volumeID w) as Hmore.
  destruct (statusQuery block ctx volumeID w) as [[err|state] w1];
    simpl in Hlast, Hmore |- *.
  { eexists. split; [apply Hlast; reflexivity|]. simpl.
    split; [lia|]. split; intros _; [split; [by eexists | lia] |].
    split; [lia | discriminate]. }
  destruct state; simpl;
    try (eexists; split; [apply Hlast; reflexivity|]; simpl;
         split; [lia|]; split; intros _; [split; [by eexists | lia] |];
         split; [lia | discriminate]).
  all: rewrite bind_clock; case_bool_decide as Hzero.
  all: try (destruct (pollUntimed_follows block ctx volumeID (now w1)
                        (Second * 5) fuel w1) as (es & Hes & Hlen & Hnone);
            eexists (_ :: es);
            (split; [apply Hmore;
                     [reflexivity | (by left) || (by right) | exact Hes]|]);
            simpl; split; [lia|]; split; [intros Hne; contradiction|];
            intros _; split; [lia | intros Hn; by rewrite (Hnone Hn)]).
  all: unfold bind;
    destruct (pollTimed_follows block ctx volumeID (now w1) (Second * 5)
                (now w1 + timeout) (Z.to_nat (timeout ÷ (Second * 5))) w1)
      as (es & Hes & Hlen);
    destruct (pollTimed _ _ _ _ _ w1) as [result w2]; simpl in *;
    eexists (_ :: es);
    (split; [apply Hmore;
             [reflexivity | (by left) || (by right) | exact Hes]|]);
    simpl; split; [lia|]; split; [|intros Hz; contradiction];
    intros _; split; [by eexists | lia].
Qed.

(** The wait does not look at the service's answer to deletions. *)
Lemma waitForVolumeAvailable_withDelete fuel block onDelete ctx volumeID
    timeout w :
  waitForVolumeAvailable fuel (withDelete block onDelete) ctx volumeID timeout w
  = waitForVolumeAvailable fuel block ctx volumeID timeout w.
Proof. reflexivity. Qed.

End Poll.
(** ** Runs of [Provision] *)

Section Runs.
Context {Quantity : Type} `{!QuantityAPI Quantity} `{!Imports}.
Implicit Types (block : blockProvisioner Quantity) (w : World) (fuel : nat).

(** What a wait leaves behind, in the terms the runs below need. *)
Lemma waitForVolumeAvailable_extends fuel block ctx volumeID timeout w :
  let run := waitForVolumeAvailable fuel block ctx volumeID timeout w in
  ∃ es, extends w run.2 es [] ∧ Forall (isQueryOf volumeID) es ∧
        (run.1 = Some None →
         last (queried es) = Some (volumeID, inr Available)).
Proof.
  intros run.
  destruct (waitForVolumeAvailable_follows fuel block ctx volumeID timeout w)
    as (es & (Hext & Hall & _ & waiting & Hwaiting & Hout) & _).
  fold run in Hext, Hout. exists es. split_and!.
  - exact Hext.
  - by eapply isQueryUnder_isQueryOf.
  - intros Hnone. rewrite Hnone in Hout. destruct Hout as (final & -> & Hs).
    rewrite last_snoc. do 2 f_equal.
    destruct final as [?|[]]; simpl in Hs; (discriminate || reflexivity).
Qed.

Lemma queried_elem volumeID reply es :
  (volumeID, reply) ∈ queried es →
  ∃ at_ ctx, EvGetVolume at_ ctx volumeID reply ∈ es.
Proof.
  unfold queried.
  induction es as [|e es IH]; [by intros ?%elem_of_nil|].
  destruct e; cbn; intros Hin;
    try (destruct (IH Hin) as (a & c & ?); exists a, c; by right).
  apply elem_of_cons in Hin as [[= <- <-] | Hin].
  - eexists _, _. by left.
  - destruct (IH Hin) as (a & c & ?). exists a, c. by right.
Qed.

(** A wait that ended well: its last answer, and when that was asked for
    under a context with a deadline. *)
Lemma waitForVolumeAvailable_ready fuel block ctx volumeID timeout w :
  let run := waitForVolumeAvailable fuel block ctx volumeID timeout w in
  run.1 = Some None →
  ∃ es, extends w run.2 es [] ∧ Forall (isQueryOf volumeID) es ∧
        last (queried es) = Some (volumeID, inr Available) ∧
        ∀ d, Deadline ctx = Some d →
             ∃ asked under,
               EvGetVolume asked under volumeID (inr Available) ∈ es ∧
               now w ≤ asked < d.
Proof.
  intros run Hnone.
  destruct (waitForVolumeAvailable_follows fuel block ctx volumeID timeout w)
    as (es & (Hext & Hall & Htime & waiting & Hwaiting & Hout) & _).
  fold run in Hext, Hout. rewrite Hnone in Hout.
  destruct Hout as (final & Hqs & Hs).
  assert (final = inr Available) as ->
    by (destruct final as [?|[]]; simpl in Hs; (discriminate || reflexivity)).
  exists es. split_and!.
  - exact Hext.
  - by eapply isQueryUnder_isQueryOf.
  - by rewrite Hqs, last_snoc.
  - intros d Hd.
    destruct (queried_elem volumeID (inr Available) es) as (asked & under & Hin).
    { rewrite Hqs. apply elem_of_app. right. by left. }
    exists asked, under. split; [exact Hin|].
    pose proof (proj1 (Forall_forall _ _) Hall _ Hin) as (_ & Hsince & ->).
    pose proof (proj1 (Forall_forall _ _) Htime _ Hin) as Hbefore.
    simpl in Hbefore. rewrite Hd in Hbefore.
    specialize (Hbefore _ eq_refl). lia.
Qed.

(** [Provision] is its three phases in sequence; a wait that has not
    returned leaves the run without a result. *)
Lemma Provision_phases fuel block options ad w :
  Provision fuel block options ad w =
  match provisionCreate block options ad w with
  | (inl err, w1) => (Some (inl err), w1)
  | (inr (ctx, capacity, newVolume), wc) =>
      match waitForVolumeAvailable fuel block ctx (Id newVolume)
              (timeout block) wc with
      | (None, wp) => (None, wp)
      | (Some (Some err), wp) =>
          let done := provisionCleanup block ctx newVolume err wp in
          (Some done.1, done.2)
      | (Some None, wp) =>
          let done :=
            provisionDescriptor block options ad capacity newVolume wp in
          (Some done.1, done.2)
      end
  end.
Proof.
  unfold Provision, provisionCreate, provisionCleanup, provisionDescriptor.
  destruct (checkAccessModes _); [reflexivity|].
  destruct (pvc_Requests _ !! _) as [capacity|]; [|reflexivity].
  unfold bind, ret, clock, logf, LookupEnv.
  destruct (volumeRoundingEnabled _);
    [destruct (block_volumeRoundingEnabled block && _)|];
    destruct (pvc_Annotations _ !! _); cbv beta iota zeta;
    (destruct (CreateVolume _ _ _ _) as [[e|newVolume] w1];
     [reflexivity|]);
    cbv beta iota zeta;
    (destruct (waitForVolumeAvailable _ _ _ _ _ _) as [[[err|]|] wp];
     [ destruct (DeleteVolume _ _ _ _); reflexivity
     | destruct (environ wp !! _); [reflexivity|];
       destruct (metadataGet _ _) as [[?|?] ?]; reflexivity
     | reflexivity ]).
Qed.

Lemma provisionCreate_run block options ad w capacity :
  checkAccessModes (pvc_AccessModes (PVC options)) = None →
  pvc_Requests (PVC options) !! ResourceStorage = Some capacity →
  let run := provisionCreate block options ad w in
  let ctx := WithTimeout Background (now w) (Timeout (client block)) in
  let effective := effectiveCapacity block options capacity in
  ∃ details reply ls,
    extends w run.2 [EvCreateVolume (now w) ctx details reply] ls ∧
    SizeInMBs details = roundUpSize (Value effective) (1024 * 1024) ∧
    SourceDetails details = pvc_Annotations (PVC options) !! OCIVolumeBackupID ∧
    warnings ls =
      (if volumeRoundingEnabled (Parameters options)
          && block_volumeRoundingEnabled block
          && bool_decide (Cmp (minVolumeSize block) capacity = 1)
       then [roundingWarning] else []) ∧
    match reply with
    | inl err => run.1 = inl err
    | inr newVolume => run.1 = inr (ctx, effective, newVolume)
    end.
Proof.
  intros Hmodes Hreq run ctx effective. subst run ctx effective.
  unfold provisionCreate. rewrite Hmodes, Hreq.
  unfold effectiveCapacity, bind, ret, clock, logf.
  destruct (volumeRoundingEnabled _), (block_volumeRoundingEnabled block),
    (bool_decide (Cmp _ _ = 1));
    destruct (pvc_Annotations _ !! _) as [backup|] eqn:Hbackup;
    cbn [andb]; cbv beta iota zeta; cbn [now];
    match goal with
    | |- context [CreateVolume ?c ?ctx ?d ?w'] =>
        pose proof (CreateVolume_extends c ctx d w') as [T L E N];
        destruct (CreateVolume c ctx d w') as [[e|newVolume] w1]
    end; simpl in *;
    eexists _, _, _;
    (split; [split; simpl; rewrite ?T, ?L, ?E; simpl; rewrite <- ?app_assoc;
             (reflexivity || lia)|]);
    rewrite ?Hbackup; repeat split; reflexivity.
Qed.

Lemma provisionCreate_inr block options ad w ctx effective newVolume wc :
  provisionCreate block options ad w = (inr (ctx, effective, newVolume), wc) →
  checkAccessModes (pvc_AccessModes (PVC options)) = None ∧
  ∃ capacity, pvc_Requests (PVC options) !! ResourceStorage = Some capacity.
Proof.
  unfold provisionCreate.
  destruct (checkAccessModes _); [discriminate|].
  destruct (pvc_Requests _ !! _); [eauto|discriminate].
Qed.

Lemma provisionCleanup_run block ctx newVolume err w :
  let run := provisionCleanup block ctx newVolume err w in
  run.1 = inl err ∧
  ∃ ctx' reply,
    extends w run.2 [EvDeleteVolume (now w) ctx' (Id newVolume) reply] [].
Proof.
  unfold provisionCleanup, bind, ret, clock. cbv beta iota zeta.
  match goal with
  | |- context [DeleteVolume ?c ?ctx ?d ?w'] =>
      pose proof (DeleteVolume_extends c ctx d w') as Hd;
      destruct (DeleteVolume c ctx d w') as [reply w1]
  end. simpl in *. eauto.
Qed.

Lemma provisionDescriptor_run block options ad capacity newVolume w :
  let run := provisionDescriptor block options ad capacity newVolume w in
  match environ w !! "OCI_SHORT_REGION"%string with
  | Some region =>
      run = (inr (descriptor options ad capacity newVolume region), w)
  | None =>
      extends w run.2 [EvMetadataGet (now w) (onGet (metadata block) w)] [] ∧
      now run.2 = now w ∧
      run.1 = match onGet (metadata block) w with
              | inl err => inl err
              | inr metadata =>
                  inr (descriptor options ad capacity newVolume
                         (Region metadata))
              end
  end.
Proof.
  unfold provisionDescriptor, LookupEnv, metadataGet, clock, emit, bind, ret.
  destruct (environ w !! _); [reflexivity|]. cbv beta iota zeta.
  destruct (onGet (metadata block) w); simpl;
    (split; [split; simpl; rewrite ?app_nil_r; (reflexivity || lia) | done]).
Qed.
End Runs.

(** ** Access modes *)

Lemma checkAccessModes_None accessModes :
  checkAccessModes accessModes = None ↔
  Forall (λ accessMode, accessMode = ReadWriteOnce) accessModes.
Proof.
  induction accessModes as [|m rest IH]; simpl.
  - split; [constructor | reflexivity].
  - case_bool_decide as Hm.
    + split; [discriminate | inversion 1; contradiction].
    + rewrite IH. split.
      * by constructor.
      * by inversion 1.
Qed.

Lemma checkAccessModes_Some accessModes :
  (∃ m, m ∈ accessModes ∧ m ≠ ReadWriteOnce) →
  ∃ m, m ∈ accessModes ∧ m ≠ ReadWriteOnce ∧
       checkAccessModes accessModes = Some (ErrInvalidAccessMode m).
Proof.
  induction accessModes as [|m rest IH]; intros (m' & Hin & Hne).
  - by apply elem_of_nil in Hin.
  - simpl. case_bool_decide as Hm.
    + exists m. repeat split; [left | assumption].
    + subst m.
      apply elem_of_cons in Hin as [->|Hin]; [contradiction|].
      destruct IH as (m & Hm & Hne' & ->); [by exists m'|].
      exists m. repeat split; [by right | assumption].
Qed.

Section AccessModes.
Context {Quantity : Type} `{!QuantityAPI Quantity} `{!Imports}.
Implicit Types (block : blockProvisioner Quantity) (w : World) (fuel : nat).

(** C1 (amended): a request whose access modes include one that is not
    [ReadWriteOnce] is rejected with the invalid-access-mode error for such
    a mode, and the world is left as it was: no call has been made and no
    line logged. *)
Theorem Provision_rejects_other_access_modes fuel block options ad w :
  (∃ m, m ∈ pvc_AccessModes (PVC options) ∧ m ≠ ReadWriteOnce) →
  ∃ m, m ∈ pvc_AccessModes (PVC options) ∧ m ≠ ReadWriteOnce ∧
       Provision fuel block options ad w =
         (Some (inl (ErrInvalidAccessMode m)), w).
Proof.
  intros Hother.
  destruct (checkAccessModes_Some _ Hother) as (m & Hin & Hne & Hcheck).
  exists m. repeat split; try assumption.
  unfold Provision. by rewrite Hcheck.
Qed.
End AccessModes.

Lemma Provision_rejects_other_access_modes_witness :
  ∃ m, m ∈ [ReadWriteOnce; ReadWriteMany] ∧ m ≠ ReadWriteOnce ∧
       Provision 0
         (Scenario.provisioner (Scenario.scripted [Available] Scenario.deleteOK)
            Scenario.phoenix (Second * 30) (Second * 60) true
            (50 * Scenario.GiB))
         (Scenario.request [ReadWriteOnce; ReadWriteMany]
            (40 * Scenario.GiB) ∅)
         Scenario.phx1 (Scenario.boot ∅)
       = (Some (inl (ErrInvalidAccessMode m)), Scenario.boot ∅).
Proof.
  apply (Provision_rejects_other_access_modes 0
           (Scenario.provisioner (Scenario.scripted [Available] Scenario.deleteOK)
              Scenario.phoenix (Second * 30) (Second * 60) true
              (50 * Scenario.GiB))
           (Scenario.request [ReadWriteOnce; ReadWriteMany]
              (40 * Scenario.GiB) ∅)).
  exists ReadWriteMany. split; [|discriminate].
  simpl. apply elem_of_cons. right. apply elem_of_cons. by left.
Defined.

(** C1, as stated, fails on a request without any access mode: its mode
    list is not the single [ReadWriteOnce], yet validation lets it through,
    the volume is created and a descriptor comes back. *)
Lemma Provision_accepts_no_access_mode :
  let options := Scenario.request [] (40 * Scenario.GiB) ∅ in
  let run :=
    Provision 0
      (Scenario.provisioner (Scenario.scripted [Available] Scenario.deleteOK)
         Scenario.phoenix (Second * 30) (Second * 60) true (50 * Scenario.GiB))
      options Scenario.phx1 (Scenario.boot ∅) in
  pvc_AccessModes (PVC options) ≠ [ReadWriteOnce] ∧
  (∃ pv, run.1 = Some (inr pv) ∧ pv_Name pv = Scenario.volumeOCID) ∧
  length (trace run.2) = 3%nat.
Proof.
  split; [discriminate|]. split.
  - eexists. split; vm_compute; reflexivity.
  - vm_compute. reflexivity.
Qed.

(** ** After the creation call *)

Section Outcomes.
Context {Quantity : Type} `{!QuantityAPI Quantity} `{!Imports}.
Implicit Types (block : blockProvisioner Quantity) (w : World) (fuel : nat).

(** Only the clean-up looks at the service's answer to deletions. *)
Lemma provisionCreate_withDelete block onDelete options ad w :
  provisionCreate (withDelete block onDelete) options ad w =
  provisionCreate block options ad w.
Proof. reflexivity. Qed.

(** A failed wait: the error of the wait comes back, after one delete
    call for the new volume and nothing else. *)
Lemma Provision_wait_failed fuel block options ad w ctx capacity newVolume wc
    err wp :
  provisionCreate block options ad w = (inr (ctx, capacity, newVolume), wc) →
  waitForVolumeAvailable fuel block ctx (Id newVolume) (timeout block) wc
    = (Some (Some err), wp) →
  let run := Provision fuel block options ad w in
  run.1 = Some (inl err) ∧
  (∃ ctx' reply,
     extends wp run.2 [EvDeleteVolume (now wp) ctx' (Id newVolume) reply] []) ∧
  ∃ es, trace run.2 = trace w ++ es ∧ deleted es = [Id newVolume].
Proof.
  intros Hcreate Hwait run. subst run.
  rewrite Provision_phases, Hcreate, Hwait.
  destruct (provisionCleanup_run block ctx newVolume err wp)
    as (Hres & ctx' & reply & Hdel).
  cbv zeta. cbn [fst snd].
  split; [by rewrite Hres|]. split; [by eexists _, _|].
  destruct (provisionCreate_inr _ _ _ _ _ _ _ _ Hcreate) as (Hmodes & c & Hreq).
  destruct (provisionCreate_run block options ad w c Hmodes Hreq)
    as (details & creply & ls & Hc & _).
  rewrite Hcreate in Hc. simpl in Hc.
  destruct (waitForVolumeAvailable_extends fuel block ctx (Id newVolume)
              (timeout block) wc) as (qs & Hq & Hall & _).
  rewrite Hwait in Hq. simpl in Hq.
  eexists. split.
  - rewrite (ext_trace _ _ _ _ Hdel), (ext_trace _ _ _ _ Hq),
      (ext_trace _ _ _ _ Hc), <- !app_assoc. reflexivity.
  - rewrite !deleted_app, (deleted_queries _ _ Hall). reflexivity.
Qed.

(** A wait that ended well: what a run can still do. *)
Lemma Provision_wait_ready fuel block options ad w ctx capacity newVolume wc
    wp :
  provisionCreate block options ad w = (inr (ctx, capacity, newVolume), wc) →
  waitForVolumeAvailable fuel block ctx (Id newVolume) (timeout block) wc
    = (Some None, wp) →
  (let done := provisionDescriptor block options ad capacity newVolume wp in
   Provision fuel block options ad w = (Some done.1, done.2)) ∧
  ∃ details reply ls qs,
    extends w wp (EvCreateVolume (now w)
                    (WithTimeout Background (now w) (Timeout (client block)))
                    details reply :: qs) ls ∧
    reply = inr newVolume ∧
    Forall (isQueryOf (Id newVolume)) qs ∧
    last (queried qs) = Some (Id newVolume, inr Available) ∧
    ∃ asked under,
      EvGetVolume asked under (Id newVolume) (inr Available) ∈ qs ∧
      now w ≤ asked < now w + Timeout (client block).
Proof.
  intros Hcreate Hwait.
  rewrite Provision_phases, Hcreate, Hwait. split; [reflexivity|].
  destruct (provisionCreate_inr _ _ _ _ _ _ _ _ Hcreate) as (Hmodes & c & Hreq).
  destruct (provisionCreate_run block options ad w c Hmodes Hreq)
    as (details & reply & ls & Hc & _ & _ & _ & Hreply).
  rewrite Hcreate in Hc, Hreply. simpl in Hc, Hreply.
  destruct (waitForVolumeAvailable_ready fuel block ctx (Id newVolume)
              (timeout block) wc) as (qs & Hq & Hall & Hlast & Hasked);
    [by rewrite Hwait|].
  rewrite Hwait in Hq. simpl in Hq.
  assert (∃ asked under,
            EvGetVolume asked under (Id newVolume) (inr Available) ∈ qs ∧
            now w ≤ asked < now w + Timeout (client block)) as Hwhen.
  { destruct reply as [?|created]; [discriminate|].
    injection Hreply as -> _ _.
    destruct (Hasked (now w + Timeout (client block)) eq_refl)
      as (asked & under & Hin & Hrange).
    exists asked, under. split; [exact Hin|].
    pose proof (ext_now _ _ _ _ Hc). lia. }
  exists details, reply, ls, qs. split_and!; [| | | |exact Hwhen]; repeat split.
  - rewrite (ext_trace _ _ _ _ Hq), (ext_trace _ _ _ _ Hc), <- app_assoc.
    reflexivity.
  - rewrite (ext_logs _ _ _ _ Hq), (ext_logs _ _ _ _ Hc), app_nil_r.
    reflexivity.
  - rewrite (ext_environ _ _ _ _ Hq). apply (ext_environ _ _ _ _ Hc).
  - pose proof (ext_now _ _ _ _ Hq). pose proof (ext_now _ _ _ _ Hc). lia.
  - destruct reply; [discriminate | congruence].
  - exact Hall.
  - exact Hlast.
Qed.
End Outcomes.

(** ** Deletion *)

Section Deletion.
Context {Quantity : Type} `{!QuantityAPI Quantity} `{!Imports}.
Implicit Types (block : blockProvisioner Quantity) (w : World) (fuel : nat).

Lemma Delete_unannotated block volume w :
  pv_Annotations volume !! OCIVolumeID = None →
  Delete block volume w = (Some ErrNoVolumeID, w).
Proof. intros Hnone. unfold Delete. by rewrite Hnone. Qed.

Lemma Delete_run block volume w volID :
  pv_Annotations volume !! OCIVolumeID = Some volID →
  let call := deleteCall block volID w in
  (Delete block volume w).1 =
    (if bool_decide (RawResponse call.1.1 = Some StatusNotFound) then None
     else if IsNotFound call.1.2 then None
     else call.1.2) ∧
  ∃ ls, extends w (Delete block volume w).2
          [EvDeleteVolume (now w)
             (WithTimeout Background (now w) (Timeout (client block)))
             volID call.1] ls.
Proof.
  intros Hann call. subst call. unfold Delete, deleteCall. rewrite Hann.
  unfold clock, logf, bind, ret. cbv beta iota zeta. cbn [now snd].
  match goal with
  | |- context [DeleteVolume ?c ?ctx ?d ?w'] =>
      pose proof (DeleteVolume_extends c ctx d w') as [T L E N];
      destruct (DeleteVolume c ctx d w') as [[response err] w1]
  end. simpl in *.
  case_bool_decide; [|destruct (IsNotFound err)]; simpl;
    (split; [reflexivity|]); eexists;
    (split; simpl; rewrite ?T, ?L, ?E; simpl; rewrite <- ?app_assoc;
     (reflexivity || lia || (rewrite app_nil_r; reflexivity) || idtac)).
  all: instantiate (1 := [_]); reflexivity.
Qed.
End Deletion.

Section DeletionClaims.
Context {Quantity : Type} `{!QuantityAPI Quantity} `{!Imports}.
Implicit Types (block : blockProvisioner Quantity) (w : World) (fuel : nat).

(** C3: [Delete] returns an error exactly when the descriptor has no
    volume-id annotation, or the delete call comes back with an error
    while neither the raw response has status 404 nor [IsNotFound]
    recognises the error; in particular a 404 status and an error that
    [IsNotFound] recognises both give nil. *)
Theorem Delete_error_iff block volume w :
  ((Delete block volume w).1 ≠ None ↔
   pv_Annotations volume !! OCIVolumeID = None ∨
   ∃ volID response err,
     pv_Annotations volume !! OCIVolumeID = Some volID ∧
     (deleteCall block volID w).1 = (response, Some err) ∧
     RawResponse response ≠ Some StatusNotFound ∧
     IsNotFound (Some err) = false) ∧
  (∀ volID response err,
     pv_Annotations volume !! OCIVolumeID = Some volID →
     (deleteCall block volID w).1 = (response, err) →
     RawResponse response = Some StatusNotFound ∨ IsNotFound err = true →
     (Delete block volume w).1 = None).
Proof.
  destruct (pv_Annotations volume !! OCIVolumeID) as [volID|] eqn:Hann.
  - destruct (Delete_run block volume w volID Hann) as [Hres _].
    rewrite Hres. clear Hres.
    destruct (deleteCall block volID w) as [[response err] w1] eqn:Hcall.
    simpl. split.
    + case_bool_decide as Hraw;
        [|destruct (IsNotFound err) eqn:Hnf; [|destruct err as [e|]]];
        (split;
         [ try done; intros _; right; exists volID, response, e;
           by rewrite Hcall
         | intros [Habs|(v & r & e' & Hv & Hc & Hr & Hn)];
           [discriminate|]; simplify_eq; rewrite Hcall in Hc; simpl in Hc;
           simplify_eq; try done; congruence ]).
    + intros v r e' Hv Hc [Hraw|Hnf]; simplify_eq; rewrite Hcall in Hc;
        simpl in Hc; simplify_eq.
      * by rewrite bool_decide_eq_true_2.
      * rewrite Hnf. by case_bool_decide.
  - rewrite (Delete_unannotated block volume w Hann). simpl. split.
    + split; [by left | done].
    + intros; discriminate.
Qed.
End DeletionClaims.

Lemma Delete_error_iff_witness :
  let block :=
    Scenario.provisioner (Scenario.scripted [] Scenario.deleteGone)
      Scenario.phoenix (Second * 30) (Second * 60) true (50 * Scenario.GiB) in
  let volume :=
    descriptor (Scenario.request [ReadWriteOnce] (40 * Scenario.GiB) ∅)
      Scenario.phx1 (40 * Scenario.GiB)
      {| Id := Scenario.volumeOCID; LifecycleState := Available |} "phx" in
  (Delete block volume (Scenario.boot ∅)).1 = None.
Proof.
  intros block volume.
  apply (proj2 (Delete_error_iff block volume (Scenario.boot ∅))
           Scenario.volumeOCID {| RawResponse := Some 404 |}
           (Some (ErrService 404 "NotFound"))).
  - vm_compute. reflexivity.
  - vm_compute. reflexivity.
  - left. reflexivity.
Defined.

(** ** Clean-up after a failed wait *)

Section Cleanup.
Context {Quantity : Type} `{!QuantityAPI Quantity} `{!Imports}.
Implicit Types (block : blockProvisioner Quantity) (w : World) (fuel : nat).

(** C2: when the wait for the created volume ends in an error (a failed
    volume, a timeout), [Provision] returns that error after exactly one
    delete call, for the created volume; and it does so whatever the
    service answers to that delete call. *)
Theorem Provision_failed_wait_deletes_once fuel block options ad w ctx
    capacity newVolume wc err wp :
  provisionCreate block options ad w = (inr (ctx, capacity, newVolume), wc) →
  waitForVolumeAvailable fuel block ctx (Id newVolume) (timeout block) wc
    = (Some (Some err), wp) →
  ((Provision fuel block options ad w).1 = Some (inl err) ∧
   ∃ es, trace (Provision fuel block options ad w).2 = trace w ++ es ∧
         deleted es = [Id newVolume]) ∧
  ∀ onDelete,
    let run := Provision fuel (withDelete block onDelete) options ad w in
    run.1 = Some (inl err) ∧
    ∃ es, trace run.2 = trace w ++ es ∧ deleted es = [Id newVolume].
Proof.
  intros Hcreate Hwait. split.
  - destruct (Provision_wait_failed fuel block options ad w _ _ _ _ _ _
                Hcreate Hwait) as (Hres & _ & Hes).
    by split.
  - intros onDelete run. subst run.
    destruct (Provision_wait_failed fuel (withDelete block onDelete) options
                ad w ctx capacity newVolume wc err wp) as (Hres & _ & Hes).
    + by rewrite provisionCreate_withDelete.
    + by rewrite waitForVolumeAvailable_withDelete.
    + by split.
Qed.
End Cleanup.

Lemma Provision_failed_wait_deletes_once_witness :
  let block :=
    Scenario.provisioner (Scenario.scripted [Provisioning; Faulty] Scenario.deleteOK)
      Scenario.phoenix (Second * 30) (Second * 60) true (50 * Scenario.GiB) in
  let options := Scenario.request [ReadWriteOnce] (40 * Scenario.GiB) ∅ in
  let err := ErrFailedToProvision Scenario.volumeOCID (ErrLifecycle Faulty) in
  let run := Provision 0 (withDelete block (λ _ _, (0, Scenario.deleteBroken)))
               options Scenario.phx1 (Scenario.boot ∅) in
  run.1 = Some (inl err) ∧
  ∃ es, trace run.2 = trace (Scenario.boot ∅) ++ es ∧
        deleted es = [Scenario.volumeOCID].
Proof.
  intros block options err.
  refine (proj2 (Provision_failed_wait_deletes_once 0 block options Scenario.phx1
                   (Scenario.boot ∅) _ _
                   {| Id := Scenario.volumeOCID; LifecycleState := Provisioning |}
                   _ err _ _ _) (λ _ _, (0, Scenario.deleteBroken))).
  - vm_compute. reflexivity.
  - vm_compute. reflexivity.
Defined.
(** ** The availability poll, answer by answer *)

Section PollClaims.
Context {Quantity : Type} `{!QuantityAPI Quantity} `{!Imports}.
Implicit Types (block : blockProvisioner Quantity) (w : World) (fuel : nat).

(** A wait by its first check: the check ends the wait, or leaves it to
    the ticker and the timer started after it. *)
Lemma waitForVolumeAvailable_first fuel block ctx volumeID timeout w :
  let query := statusQuery block ctx volumeID w in
  waitForVolumeAvailable fuel block ctx volumeID timeout w =
  match verdict volumeID query.1 with
  | (_, Some e) => (Some (Some e), query.2)
  | (true, None) => (Some None, query.2)
  | (false, None) =>
      if bool_decide (timeout = 0)
      then pollUntimed fuel (now query.2) (Second * 5)
             (pollCondition block ctx volumeID) query.2
      else
        let rest :=
          pollTimed (Z.to_nat (timeout ÷ (Second * 5))) (now query.2)
            (Second * 5) (now query.2 + timeout)
            (pollCondition block ctx volumeID) query.2 in
        (Some rest.1, rest.2)
  end.
Proof.
  unfold waitForVolumeAvailable, PollImmediate. rewrite bind_pollCondition.
  destruct (verdict _ _) as [[] [e|]]; try reflexivity.
  rewrite bind_clock. case_bool_decide; [reflexivity|].
  unfold bind, ret. by destruct (pollTimed _ _ _ _ _ _).
Qed.

(** The check made after the timer has fired is made no earlier than the
    timer's instant. *)
Lemma lastCheck_late block ctx volumeID stop w :
  stop ≤ now ((sleepUntil stop;;
               lastCheck (pollCondition block ctx volumeID)) w).2.
Proof.
  rewrite bind_sleepUntil. unfold lastCheck. rewrite bind_pollCondition.
  pose proof (ext_now _ _ _ _
                (statusQuery_extends block ctx volumeID
                   (setNow (Z.max (now w) stop) w))) as Hnow.
  destruct (statusQuery _ _ _ _) as [[err|[]] w1]; simpl in *; lia.
Qed.

(** The timeout error is only returned once the timer has fired. *)
Lemma pollTimed_timeout block ctx volumeID start interval stop ticks : ∀ w,
  let run := pollTimed ticks start interval stop
               (pollCondition block ctx volumeID) w in
  run.1 = Some ErrWaitTimeout → stop ≤ now run.2.
Proof.
  induction ticks as [|ticks IH]; intros w run; subst run;
    cbn [pollTimed]; rewrite bind_clock.
  - intros _. apply lastCheck_late.
  - case_bool_decide as Hfire; [intros _; apply lastCheck_late|].
    rewrite bind_sleepUntil, bind_pollCondition.
    destruct (statusQuery _ _ _ _) as [[err|[]] w1]; simpl;
      try discriminate; apply IH.
Qed.

(** A wait without a timer never returns the timeout error. *)
Lemma pollUntimed_result block ctx volumeID start interval fuel : ∀ w,
  (pollUntimed fuel start interval (pollCondition block ctx volumeID) w).1
    ≠ Some (Some ErrWaitTimeout).
Proof.
  induction fuel as [|fuel IH]; intros w; cbn [pollUntimed]; [discriminate|].
  rewrite bind_clock, bind_sleepUntil, bind_pollCondition.
  destruct (statusQuery _ _ _ _) as [[err|[]] w1]; simpl;
    try discriminate; apply IH.
Qed.

Lemma waitForVolumeAvailable_timed_out fuel block ctx volumeID timeout w :
  let run := waitForVolumeAvailable fuel block ctx volumeID timeout w in
  run.1 = Some (Some ErrWaitTimeout) →
  timeout ≠ 0 ∧
  now (statusQuery block ctx volumeID w).2 + timeout ≤ now run.2.
Proof.
  intros run. subst run. rewrite waitForVolumeAvailable_first.
  destruct (statusQuery block ctx volumeID w) as [[err|[]] w1];
    cbn [verdict fst snd]; try discriminate.
  all: case_bool_decide as Hzero;
    [ intros Habs; by apply pollUntimed_result in Habs
    | cbv zeta; cbn [fst snd]; intros [= Hres]; split; [exact Hzero|];
      by apply pollTimed_timeout in Hres ].
Qed.

(** After a first check that leaves the volume pending, the wait checks
    again, unless it has no timer and is not followed any further. *)
Lemma waitForVolumeAvailable_again fuel block ctx volumeID timeout w state :
  (statusQuery block ctx volumeID w).1 = inr state → pending state →
  let run := waitForVolumeAvailable fuel block ctx volumeID timeout w in
  ∃ es, trace run.2 = trace (statusQuery block ctx volumeID w).2 ++ es ∧
        Forall (isQueryOf volumeID) es ∧
        (timeout ≠ 0 ∨ fuel ≠ O → es ≠ []).
Proof.
  intros Hstate Hpending run. subst run. rewrite waitForVolumeAvailable_first.
  destruct (statusQuery block ctx volumeID w) as [reply w1].
  cbn [fst snd] in *. subst reply.
  assert (verdict volumeID (inr state) = (false, None)) as ->
    by (by destruct Hpending as [-> | ->]).
  case_bool_decide as Hzero.
  - destruct (pollUntimed_follows block ctx volumeID (now w1) (Second * 5)
                fuel w1)
      as (es & (Hext & Hall & _ & waiting & _ & Hout) & Hlen & Hnone).
    exists es. split_and!.
    + apply (ext_trace _ _ _ _ Hext).
    + by eapply isQueryUnder_isQueryOf.
    + intros [Hne | Hfuel]; [contradiction|]. intros ->.
      destruct (pollUntimed _ _ _ _ _) as [[result|] w2]; cbn [fst snd] in *.
      * destruct Hout as (final & Hqs & _). by destruct waiting.
      * specialize (Hnone eq_refl). simpl in Hnone. congruence.
  - destruct (pollTimed_follows block ctx volumeID (now w1) (Second * 5)
                (now w1 + timeout) (Z.to_nat (timeout ÷ (Second * 5))) w1)
      as (es & (Hext & Hall & _) & Hlen).
    exists es. cbv zeta. cbn [fst snd]. split_and!.
    + apply (ext_trace _ _ _ _ Hext).
    + by eapply isQueryUnder_isQueryOf.
    + intros _ ->. simpl in Hlen. lia.
Qed.

(** Every wait begins with the status query of its first check. *)
Lemma waitForVolumeAvailable_begins fuel block ctx volumeID timeout w :
  let run := waitForVolumeAvailable fuel block ctx volumeID timeout w in
  ∃ rest,
    trace run.2 =
      trace w ++ EvGetVolume (now w)
                   (WithTimeout ctx (now w) (Timeout (client block))) volumeID
                   (statusQuery block ctx volumeID w).1 :: rest.
Proof.
  intros run.
  pose proof (ext_trace _ _ _ _ (statusQuery_extends block ctx volumeID w))
    as Hq.
  assert (∃ es, trace run.2 = trace (statusQuery block ctx volumeID w).2 ++ es)
    as [es Hes].
  { pose proof (waitForVolumeAvailable_first fuel block ctx volumeID timeout w)
      as Hfirst.
    pose proof (waitForVolumeAvailable_again fuel block ctx volumeID timeout w)
      as Hagain.
    fold run in Hfirst, Hagain. cbv zeta in Hfirst, Hagain.
    destruct ((statusQuery block ctx volumeID w).1) as [err|[]];
      cbn [verdict] in Hfirst;
      try (exists []; by rewrite Hfirst, app_nil_r).
    - destruct (Hagain Provisioning) as (es & Hes & _);
        [reflexivity | by left | by exists es].
    - destruct (Hagain Restoring) as (es & Hes & _);
        [reflexivity | by right | by exists es]. }
  exists es. rewrite Hes, Hq, <- app_assoc. reflexivity.
Qed.

(** C6: every check of a wait makes one status query and is decided by
    its answer, the first check and every later one.  [Available] is ready
    and ends the wait with nil.  [Faulty], [Terminated] and [Terminating]
    end the wait at once with the failed-to-provision error for that
    state, and an error of the query itself ends the wait at once with the
    failed-to-provision error that wraps it: in both cases no further
    query is made.  After any other state ([Provisioning], [Restoring])
    the wait is not over: it makes another query, unless its timer has
    fired, no sooner than the timeout after the first check, and it
    returns the timeout error; or, for a timeout of zero, it is still
    polling.  The wait ends with nil only on an answer [Available]. *)
Theorem waitForVolumeAvailable_by_answer fuel block ctx volumeID timeout w :
  let wait := waitForVolumeAvailable fuel block ctx volumeID timeout w in
  let query := statusQuery block ctx volumeID w in
  match query.1 with
  | inr Available => wait = (Some None, query.2)
  | inr Provisioning | inr Restoring =>
      ∃ es, trace wait.2 = trace query.2 ++ es ∧
            Forall (isQueryOf volumeID) es ∧
            (timeout ≠ 0 ∨ fuel ≠ O → es ≠ [])
  | inr state =>
      wait = (Some (Some (ErrFailedToProvision volumeID (ErrLifecycle state))),
              query.2)
  | inl err =>
      wait = (Some (Some (ErrFailedToProvision volumeID err)), query.2)
  end ∧
  ∃ es,
    trace wait.2 = trace w ++ es ∧
    Forall (isQueryOf volumeID) es ∧
    queried es !! 0%nat = Some (volumeID, query.1) ∧
    (∀ i answer,
       queried es !! i = Some (volumeID, answer) →
       match answer with
       | inr Available => wait.1 = Some None ∧ length es = S i
       | inr Provisioning | inr Restoring =>
           (S i < length es)%nat ∨
           (wait.1 = None ∧ timeout = 0) ∨
           (wait.1 = Some (Some ErrWaitTimeout) ∧ timeout ≠ 0 ∧
            now query.2 + timeout ≤ now wait.2)
       | inr state =>
           wait.1 = Some (Some (ErrFailedToProvision volumeID
                                  (ErrLifecycle state))) ∧
           length es = S i
       | inl err =>
           wait.1 = Some (Some (ErrFailedToProvision volumeID err)) ∧
           length es = S i
       end) ∧
    (wait.1 = Some None →
     last (queried es) = Some (volumeID, inr Available)).
Proof.
  intros wait query. split.
  - pose proof (waitForVolumeAvailable_first fuel block ctx volumeID timeout w)
      as Hfirst.
    pose proof (waitForVolumeAvailable_again fuel block ctx volumeID timeout w)
      as Hagain.
    fold wait query in Hfirst, Hagain. cbv zeta in Hfirst, Hagain.
    destruct (query.1) as [err|[]]; cbn [verdict] in Hfirst;
      try exact Hfirst.
    + apply (Hagain Provisioning); [reflexivity | by left].
    + apply (Hagain Restoring); [reflexivity | by right].
  - destruct (waitForVolumeAvailable_follows fuel block ctx volumeID timeout w)
      as (es & (Hext & Hall & _ & waiting & Hwaiting & Hout) & Hone & Htimed
          & _).
    pose proof (waitForVolumeAvailable_timed_out fuel block ctx volumeID
                  timeout w) as Hlate.
    pose proof (waitForVolumeAvailable_extends fuel block ctx volumeID
                  timeout w) as Hready.
    fold wait in Hext, Hout, Htimed, Hlate. fold query in Hlate.
    cbv zeta in Hlate.
    apply isQueryUnder_isQueryOf in Hall.
    pose proof (queried_queries _ _ Hall) as Hlen.
    exists es. split_and!.
    + apply (ext_trace _ _ _ _ Hext).
    + exact Hall.
    + destruct (waitForVolumeAvailable_begins fuel block ctx volumeID
                  timeout w) as (rest & Hrest).
      fold wait query in Hrest.
      rewrite (ext_trace _ _ _ _ Hext) in Hrest. apply app_inv_head in Hrest.
      by rewrite Hrest.
    + intros i answer Hi.
      destruct (wait.1) as [result|] eqn:Hres.
      * destruct Hout as (final & Hqs & Hsettles).
        rewrite Hqs, length_app, length_fmap in Hlen. simpl in Hlen.
        rewrite Hqs in Hi.
        apply lookup_app_Some in Hi as [Hi | [Hi1 Hi2]].
        -- rewrite list_lookup_fmap in Hi.
           destruct (waiting !! i) as [state|] eqn:Hstate; [|discriminate].
           injection Hi as <-.
           pose proof (Forall_lookup_1 _ _ _ _ Hwaiting Hstate) as Hpending.
           apply lookup_lt_Some in Hstate.
           destruct Hpending as [-> | ->]; left; lia.
        -- rewrite length_fmap in Hi1, Hi2.
           destruct (i - length waiting)%nat as [|k] eqn:Hk;
             [|by destruct k].
           injection Hi2 as <-.
           assert (length es = S i) as Hlast by lia.
           destruct final as [err|[]]; simpl in Hsettles; subst result;
             try (by split).
           all: right; right; split; [reflexivity|]; by apply Hlate.
      * destruct (decide (timeout = 0)) as [Hzero|Hne];
          [|destruct (proj1 (Htimed Hne)); discriminate].
        rewrite Hout in Hi. rewrite list_lookup_fmap in Hi.
        destruct (waiting !! i) as [state|] eqn:Hstate; [|discriminate].
        injection Hi as <-.
        pose proof (Forall_lookup_1 _ _ _ _ Hwaiting Hstate) as Hpending.
        destruct Hpending as [-> | ->]; right; left; by split.
    + intros Hnone. destruct Hready as (es' & Hext' & _ & Hlast').
      fold wait in Hext', Hlast'.
      pose proof (ext_trace _ _ _ _ Hext) as Ht.
      rewrite (ext_trace _ _ _ _ Hext') in Ht. apply app_inv_head in Ht.
      subst es'. by apply Hlast'.
Qed.

End PollClaims.
(** ** Successful runs, the floor and the region *)

Section Descriptor.
Context {Quantity : Type} `{!QuantityAPI Quantity} `{!Imports}.
Implicit Types (block : blockProvisioner Quantity) (w : World) (fuel : nat).

Lemma Provision_tail fuel block options ad w ctx capacity newVolume wc :
  provisionCreate block options ad w = (inr (ctx, capacity, newVolume), wc) →
  let run := Provision fuel block options ad w in
  (∃ es, extends wc run.2 es []) ∧
  ∀ pv, run.1 = Some (inr pv) →
        ∃ region, pv = descriptor options ad capacity newVolume region.
Proof.
  intros Hcreate run. subst run. rewrite Provision_phases, Hcreate.
  destruct (waitForVolumeAvailable_extends fuel block ctx (Id newVolume)
              (timeout block) wc) as (qs & Hq & _).
  destruct (waitForVolumeAvailable _ _ _ _ _ wc) as [[[err|]|] wp];
    cbv zeta; cbn [fst snd] in *.
  - destruct (provisionCleanup_run block ctx newVolume err wp)
      as (Hres & ctx' & reply & Hdel).
    split.
    + eexists. apply (extends_trans _ _ _ _ [] _ [] Hq Hdel).
    + intros pv Hpv. rewrite Hres in Hpv. discriminate.
  - pose proof (provisionDescriptor_run block options ad capacity newVolume wp)
      as Hdesc.
    destruct (environ wp !! _) as [region|].
    + simpl in Hdesc. rewrite Hdesc. simpl. split.
      * exists qs. exact Hq.
      * intros pv [= <-]. by exists region.
    + destruct Hdesc as (Hmeta & _ & Hres). split.
      * eexists. apply (extends_trans _ _ _ _ [] _ [] Hq Hmeta).
      * intros pv Hpv. rewrite Hres in Hpv.
        destruct (onGet _ _) as [e|md]; [discriminate|].
        injection Hpv as <-. by eexists.
  - split; [by exists qs | discriminate].
Qed.

End Descriptor.


Section Region.
Context {Quantity : Type} `{!QuantityAPI Quantity} `{!Imports}.
Implicit Types (block : blockProvisioner Quantity) (w : World) (fuel : nat).

Lemma descriptor_region (options : VolumeOptions Quantity) ad capacity
    newVolume region :
  pv_Labels (descriptor options ad capacity newVolume region)
    !! LabelZoneRegion = Some region.
Proof. apply lookup_insert_eq. Qed.

(** C8: once the wait has ended well, the region is the value of
    [OCI_SHORT_REGION] when the environment has it, and then the instance
    metadata is not queried; otherwise it is the region of the instance
    metadata.  When that lookup fails its error is returned, no delete
    call has been made in the whole run, and the world is the one the
    wait left, but for the record of the metadata query. *)
Theorem Provision_region fuel block options ad w ctx capacity newVolume wc
    wp :
  provisionCreate block options ad w = (inr (ctx, capacity, newVolume), wc) →
  waitForVolumeAvailable fuel block ctx (Id newVolume) (timeout block) wc
    = (Some None, wp) →
  let run := Provision fuel block options ad w in
  match environ w !! "OCI_SHORT_REGION"%string with
  | Some region =>
      run = (Some (inr (descriptor options ad capacity newVolume region)), wp)
  | None =>
      match onGet (metadata block) wp with
      | inr metadata =>
          run.1 = Some (inr (descriptor options ad capacity newVolume
                               (Region metadata))) ∧
          extends wp run.2 [EvMetadataGet (now wp) (inr metadata)] []
      | inl err =>
          run.1 = Some (inl err) ∧
          extends wp run.2 [EvMetadataGet (now wp) (inl err)] [] ∧
          now run.2 = now wp ∧
          ∃ es, trace run.2 = trace w ++ es ∧ deleted es = []
      end
  end.
Proof.
  intros Hcreate Hwait run. subst run.
  destruct (Provision_wait_ready fuel block options ad w _ _ _ _ _
              Hcreate Hwait)
    as (-> & details & reply & ls & qs & Hext & _ & Hall & _).
  pose proof (provisionDescriptor_run block options ad capacity newVolume wp)
    as Hdesc.
  rewrite (ext_environ _ _ _ _ Hext) in Hdesc. cbn [fst snd].
  destruct (environ w !! _) as [region|]; [by rewrite Hdesc|].
  destruct Hdesc as (Hmeta & Hnow & Hres). rewrite Hres.
  destruct (onGet (metadata block) wp) as [err|md].
  - repeat split; try assumption; try apply Hmeta.
    eexists. split.
    + rewrite (ext_trace _ _ _ _ Hmeta), (ext_trace _ _ _ _ Hext),
        <- app_assoc. reflexivity.
    + rewrite deleted_app. change (deleted (?e :: qs)) with (deleted qs).
      rewrite (deleted_queries _ _ Hall). reflexivity.
  - split; [reflexivity | exact Hmeta].
Qed.

End Region.

Lemma Provision_region_witness :
  let block :=
    Scenario.provisioner (Scenario.scripted [Provisioning; Available] Scenario.deleteOK)
      Scenario.noMetadata (Second * 30) (Second * 60) true (50 * Scenario.GiB) in
  let options := Scenario.request [ReadWriteOnce] (40 * Scenario.GiB) ∅ in
  let run := Provision 0 block options Scenario.phx1 (Scenario.boot ∅) in
  run.1 = Some (inl (ErrService 503 "metadata service unavailable")) ∧
  ∃ es, trace run.2 = trace (Scenario.boot ∅) ++ es ∧ deleted es = [].
Proof.
  intros block options run.
  set (ctx := WithTimeout Background 0 (Second * 30)).
  set (newVolume := {| Id := Scenario.volumeOCID; LifecycleState := Provisioning |}).
  set (wc := (provisionCreate block options Scenario.phx1 (Scenario.boot ∅)).2).
  set (wp := (waitForVolumeAvailable 0 block ctx (Id newVolume) (timeout block)
                wc).2).
  assert (provisionCreate block options Scenario.phx1 (Scenario.boot ∅)
          = (inr (ctx, 50 * Scenario.GiB, newVolume), wc)) as Hcreate
    by (vm_compute; reflexivity).
  assert (waitForVolumeAvailable 0 block ctx (Id newVolume) (timeout block) wc
          = (Some None, wp)) as Hwait
    by (vm_compute; reflexivity).
  pose proof (Provision_region 0 block options Scenario.phx1 (Scenario.boot ∅)
                ctx (50 * Scenario.GiB) newVolume wc wp Hcreate Hwait)
    as Hregion.
  cbv zeta in Hregion.
  change (environ (Scenario.boot ∅) !! "OCI_SHORT_REGION"%string)
    with (@None string) in Hregion.
  change (onGet (metadata block) wp)
    with (@inl error InstanceMetadata
            (ErrService 503 "metadata service unavailable")) in Hregion.
  destruct Hregion as (Hres & _ & _ & Hes). split; assumption.
Defined.



(** ** The deadline of the creation call *)

(** C7 fails on the code.  The context of the creation call (block.go:189)
    is the one handed to the wait (block.go:199), so every status query
    inherits the creation call's deadline.  With a call timeout of 10 s and
    a provisioning timeout of 60 s, a volume that stays in [Provisioning]
    is polled at 0 s and 5 s; the query at 10 s fails on the expired
    context, and the wait ends there with that error, not at 60 s with a
    timeout; the clean-up delete call runs under the same expired context. *)
Theorem Provision_wait_cut_short :
  let block :=
    Scenario.provisioner (Scenario.scripted [] Scenario.deleteOK)
      Scenario.phoenix (Second * 10) (Second * 60) true (50 * Scenario.GiB) in
  let options := Scenario.request [ReadWriteOnce] (40 * Scenario.GiB) ∅ in
  let run := Provision 0 block options Scenario.phx1 (Scenario.boot ∅) in
  run.1 = Some (inl (ErrFailedToProvision Scenario.volumeOCID
                       ErrDeadlineExceeded)) ∧
  now run.2 = Second * 10 ∧
  queried (trace run.2) =
    [(Scenario.volumeOCID, inr Provisioning);
     (Scenario.volumeOCID, inr Provisioning);
     (Scenario.volumeOCID, inl ErrDeadlineExceeded)] ∧
  last (trace run.2) =
    Some (EvDeleteVolume (Second * 10) {| Deadline := Some (Second * 10) |}
            Scenario.volumeOCID
            ({| RawResponse := None |}, Some ErrDeadlineExceeded)).
Proof. vm_compute. repeat split; reflexivity. Qed.

(** With a call timeout that outlasts the provisioning timeout, the same
    volume is polled at once, on each of the twelve ticks and once more
    when the timer fires, and the wait times out. *)
Example Provision_wait_times_out :
  let block :=
    Scenario.provisioner (Scenario.scripted [] Scenario.deleteOK)
      Scenario.phoenix (Second * 100) (Second * 60) true (50 * Scenario.GiB) in
  let options := Scenario.request [ReadWriteOnce] (40 * Scenario.GiB) ∅ in
  let run := Provision 0 block options Scenario.phx1 (Scenario.boot ∅) in
  run.1 = Some (inl ErrWaitTimeout) ∧
  now run.2 = Second * 60 ∧
  length (queried (trace run.2)) = 14%nat ∧
  deleted (trace run.2) = [Scenario.volumeOCID].
Proof. vm_compute. repeat split; reflexivity. Qed.
(** * Further properties *)

(** ** Allocation units *)

(** X1: within the [int64] range, [roundUpSize] gives the least number of
    units that covers the request: any count of units that covers it is at
    least as large; and a request that is a whole number of units gets
    exactly that number. *)
Theorem roundUpSize_least C U n :
  0 ≤ C → 0 < U → C + U - 1 ≤ Int64.MaxInt64 →
  (C ≤ n * U → roundUpSize C U ≤ n) ∧
  (C = n * U → roundUpSize C U = n).
Proof.
  intros HC HU Hfit. rewrite roundUpSize_exact by assumption. split.
  - intros Hcover.
    assert ((C + U - 1) `div` U < n + 1); [|lia].
    apply Z.div_lt_upper_bound; nia.
  - intros ->. symmetry. apply (Z.div_unique _ _ _ (U - 1)); lia.
Qed.

Lemma roundUpSize_least_witness :
  (50 * Scenario.GiB ≤ 51200 * (1024 * 1024) →
   roundUpSize (50 * Scenario.GiB) (1024 * 1024) ≤ 51200) ∧
  (50 * Scenario.GiB = 51200 * (1024 * 1024) →
   roundUpSize (50 * Scenario.GiB) (1024 * 1024) = 51200).
Proof.
  apply (roundUpSize_least (50 * Scenario.GiB) (1024 * 1024) 51200);
    vm_compute; congruence.
Defined.

(** X2: within the [int64] range, a larger request never gets fewer
    units. *)
Theorem roundUpSize_monotone C1 C2 U :
  0 ≤ C1 → C1 ≤ C2 → 0 < U → C2 + U - 1 ≤ Int64.MaxInt64 →
  roundUpSize C1 U ≤ roundUpSize C2 U.
Proof.
  intros H1 H12 HU Hfit. rewrite !roundUpSize_exact by lia.
  apply Z.div_le_mono; lia.
Qed.

Lemma roundUpSize_monotone_witness :
  roundUpSize (40 * Scenario.GiB) (1024 * 1024)
  ≤ roundUpSize (40 * Scenario.GiB + 1) (1024 * 1024).
Proof.
  apply (roundUpSize_monotone (40 * Scenario.GiB) (40 * Scenario.GiB + 1)
           (1024 * 1024)); vm_compute; congruence.
Defined.

(** ** Volume names *)

Lemma Split_length s sep : length (Split s sep) = S (Count s sep).
Proof.
  induction s as [|c rest IH]; simpl; [reflexivity|].
  case_bool_decide; simpl; [by rewrite IH|].
  destruct (Split rest sep); simpl in *; lia.
Qed.

Lemma Count_app s1 s2 sep :
  Count (s1 +:+ s2) sep = (Count s1 sep + Count s2 sep)%nat.
Proof.
  induction s1 as [|c rest IH]; simpl; [reflexivity|].
  case_bool_decide; rewrite IH; reflexivity.
Qed.

Lemma Split_app_sep part rest sep :
  Count part sep = 0%nat →
  Split (part +:+ String sep rest) sep = part :: Split rest sep.
Proof.
  induction part as [|c part IH]; simpl.
  - intros _. by rewrite bool_decide_eq_true_2.
  - case_bool_decide; [discriminate|]. intros Hnone. by rewrite IH.
Qed.

Lemma Split_whole part sep : Count part sep = 0%nat → Split part sep = [part].
Proof.
  induction part as [|c part IH]; simpl; [reflexivity|].
  case_bool_decide; [discriminate|]. intros Hnone. by rewrite IH.
Qed.

Lemma Split_Join parts sep :
  parts ≠ [] → Forall (λ part, Count part sep = 0%nat) parts →
  Split (Join parts sep) sep = parts.
Proof.
  intros Hne Hparts. induction Hparts as [|part rest Hpart Hrest IH];
    [contradiction|].
  destruct rest as [|part' rest].
  - simpl. by apply Split_whole.
  - change (Join (part :: part' :: rest) sep)
      with (part +:+ String sep (Join (part' :: rest) sep))%string.
    rewrite Split_app_sep by assumption. by rewrite IH.
Qed.

(** X3: [mapVolumeIDToName] yields a name exactly for the ids with at
    least four dots; on any other id the index is out of range and the
    code panics. *)
Theorem mapVolumeIDToName_defined volumeID :
  is_Some (mapVolumeIDToName volumeID) ↔ (4 ≤ Count volumeID ".")%nat.
Proof.
  unfold mapVolumeIDToName. rewrite lookup_lt_is_Some, Split_length. lia.
Qed.

(** X4: on an id made of dot-free parts joined by dots,
    [mapVolumeIDToName] yields the fifth part, whatever follows it. *)
Theorem mapVolumeIDToName_Join parts :
  parts ≠ [] → Forall (λ part, Count part "." = 0%nat) parts →
  mapVolumeIDToName (Join parts ".") = parts !! 4%nat.
Proof.
  intros Hne Hparts. unfold mapVolumeIDToName. by rewrite Split_Join.
Qed.

Lemma mapVolumeIDToName_Join_witness :
  mapVolumeIDToName (Join ["ocid1"; "volume"; "oc1"; "phx"; "abcdef"]%string ".")
  = ["ocid1"; "volume"; "oc1"; "phx"; "abcdef"]%string !! 4%nat.
Proof.
  apply (mapVolumeIDToName_Join ["ocid1"; "volume"; "oc1"; "phx"; "abcdef"]%string).
  - discriminate.
  - repeat constructor.
Defined.

(** ** The wait as a whole *)

Section WaitFacts.
Context {Quantity : Type} `{!QuantityAPI Quantity} `{!Imports}.
Implicit Types (block : blockProvisioner Quantity) (w : World) (fuel : nat).

(** X5: a wait makes at least one status query.  Unless its timeout is
    zero it returns, after at most two queries more than there are
    five-second intervals in its timeout: the first check, one check per
    tick, and the check made when the timer fires.  It queries nothing but
    its volume, makes no other call, and logs nothing; and when it returns,
    it ends in nil, in the timeout error, or in a failed-to-provision error
    that names the volume. *)
Theorem waitForVolumeAvailable_queries fuel block ctx volumeID timeout w :
  let run := waitForVolumeAvailable fuel block ctx volumeID timeout w in
  ∃ es, trace run.2 = trace w ++ es ∧
        logs run.2 = logs w ∧
        Forall (isQueryOf volumeID) es ∧
        (1 ≤ length es)%nat ∧
        (timeout ≠ 0 →
         is_Some run.1 ∧
         (length es ≤ 2 + Z.to_nat (timeout ÷ (Second * 5)))%nat) ∧
        (timeout = 0 → (length es ≤ S fuel)%nat) ∧
        (∀ result, run.1 = Some result →
           result = None ∨ result = Some ErrWaitTimeout ∨
           ∃ cause, result = Some (ErrFailedToProvision volumeID cause)).
Proof.
  intros run.
  destruct (waitForVolumeAvailable_follows fuel block ctx volumeID timeout w)
    as (es & (Hext & Hall & _ & waiting & _ & Hout) & Hone & Htimed & Hzero).
  fold run in Hext, Hout, Htimed, Hzero.
  exists es. split_and!.
  - apply (ext_trace _ _ _ _ Hext).
  - rewrite (ext_logs _ _ _ _ Hext). apply app_nil_r.
  - by eapply isQueryUnder_isQueryOf.
  - exact Hone.
  - exact Htimed.
  - intros Hz. apply (Hzero Hz).
  - intros result Hres. rewrite Hres in Hout.
    destruct Hout as (final & _ & Hsettles).
    destruct final as [cause|[]]; simpl in Hsettles; subst result;
      first [ by left | by right; left | right; right; by eexists ].
Qed.

(** X6: under a context whose deadline has already passed, the wait fails
    on its first status query, with the deadline error wrapped in the
    failed-to-provision error, whatever the state of the volume and however
    long the timeout of the wait. *)
Theorem waitForVolumeAvailable_expired fuel block ctx volumeID timeout w d :
  Deadline ctx = Some d → d ≤ now w →
  let run := waitForVolumeAvailable fuel block ctx volumeID timeout w in
  run.1 = Some (Some (ErrFailedToProvision volumeID ErrDeadlineExceeded)) ∧
  trace run.2 =
    trace w ++ [EvGetVolume (now w)
                  (WithTimeout ctx (now w) (Timeout (client block))) volumeID
                  (inl ErrDeadlineExceeded)].
Proof.
  intros Hd Hpast run. subst run.
  rewrite waitForVolumeAvailable_first.
  pose proof (statusQuery_expired block ctx volumeID w d Hd Hpast) as Hq.
  pose proof (statusQuery_extends block ctx volumeID w) as Hext.
  destruct (statusQuery block ctx volumeID w) as [reply w1]. simpl in *.
  subst reply. split; [reflexivity|]. apply (ext_trace _ _ _ _ Hext).
Qed.

(** A service that leaves the volume pending, as the poll sees it. *)
Lemma statusQuery_pending block ctx volumeID :
  Deadline ctx = None →
  (∀ w', ∃ latency state,
      onGetVolume (BlockStorage (client block)) w' volumeID
        = (latency, inr state) ∧
      pending state ∧ Z.max 0 latency < Timeout (client block)) →
  ∀ w, verdict volumeID (statusQuery block ctx volumeID w).1 = (false, None).
Proof.
  intros Hnone Hservice w.
  unfold statusQuery, GetVolume, bind, clock, ret, roundTrip, WithTimeout.
  rewrite Hnone. cbn [Deadline].
  destruct (Hservice w) as (latency & state & -> & Hp & Hlat).
  rewrite bool_decide_eq_false_2 by lia.
  by destruct Hp as [-> | ->].
Qed.

Lemma pollTimed_pending block ctx volumeID start interval stop ticks :
  (∀ w, verdict volumeID (statusQuery block ctx volumeID w).1
        = (false, None)) →
  ∀ w, (pollTimed ticks start interval stop
          (pollCondition block ctx volumeID) w).1 = Some ErrWaitTimeout.
Proof.
  intros Hpending.
  assert (∀ w, ((sleepUntil stop;;
                 lastCheck (pollCondition block ctx volumeID)) w).1
               = Some ErrWaitTimeout) as Hfinal.
  { intros w. rewrite bind_sleepUntil. unfold lastCheck.
    by rewrite bind_pollCondition, Hpending. }
  induction ticks as [|ticks IH]; intros w; cbn [pollTimed];
    rewrite bind_clock; [apply Hfinal|].
  case_bool_decide; [apply Hfinal|].
  rewrite bind_sleepUntil, bind_pollCondition, Hpending. apply IH.
Qed.

Lemma pollUntimed_pending block ctx volumeID start interval fuel :
  (∀ w, verdict volumeID (statusQuery block ctx volumeID w).1
        = (false, None)) →
  ∀ w, (pollUntimed fuel start interval
          (pollCondition block ctx volumeID) w).1 = None.
Proof.
  intros Hpending.
  induction fuel as [|fuel IH]; intros w; cbn [pollUntimed]; [reflexivity|].
  rewrite bind_clock, bind_sleepUntil, bind_pollCondition, Hpending.
  apply IH.
Qed.

(** X7: when the context has no deadline and the service answers every
    status query for the volume, within the call timeout, with a state that
    is neither ready nor failed, a wait with a timeout other than zero ends
    in the timeout error, no sooner than the timeout after its first check
    and after at least two queries: the first check and the one made when
    the timer fires.  A wait with a timeout of zero does not return: however
    long it is followed, it is still polling, one query at the start and
    one for every tick since. *)
Theorem waitForVolumeAvailable_times_out fuel block ctx volumeID timeout w :
  Deadline ctx = None →
  (∀ w', ∃ latency state,
      onGetVolume (BlockStorage (client block)) w' volumeID
        = (latency, inr state) ∧
      pending state ∧ Z.max 0 latency < Timeout (client block)) →
  let run := waitForVolumeAvailable fuel block ctx volumeID timeout w in
  ∃ es, trace run.2 = trace w ++ es ∧
        (timeout ≠ 0 →
         run.1 = Some (Some ErrWaitTimeout) ∧
         (2 ≤ length es ≤ 2 + Z.to_nat (timeout ÷ (Second * 5)))%nat ∧
         now (statusQuery block ctx volumeID w).2 + timeout ≤ now run.2) ∧
        (timeout = 0 → run.1 = None ∧ length es = S fuel).
Proof.
  intros Hnone Hservice run.
  pose proof (statusQuery_pending block ctx volumeID Hnone Hservice)
    as Hpending.
  assert (run.1 = if bool_decide (timeout = 0) then None
                  else Some (Some ErrWaitTimeout)) as Hres.
  { subst run. rewrite waitForVolumeAvailable_first. cbv zeta.
    rewrite Hpending. case_bool_decide.
    - by apply pollUntimed_pending.
    - cbn [fst]. f_equal. by apply pollTimed_pending. }
  destruct (waitForVolumeAvailable_follows fuel block ctx volumeID timeout w)
    as (es & (Hext & _) & Hone & Htimed & Hzero).
  fold run in Hext, Htimed, Hzero.
  exists es. split; [apply (ext_trace _ _ _ _ Hext)|]. split.
  - intros Hne. rewrite bool_decide_eq_false_2 in Hres by exact Hne.
    split; [exact Hres|]. split.
    + split; [|apply (Htimed Hne)].
      destruct (statusQuery block ctx volumeID w) as [reply w1] eqn:Hquery.
      assert (∃ state, reply = inr state ∧ pending state)
        as (state & -> & Hstate).
      { specialize (Hpending w). rewrite Hquery in Hpending.
        destruct reply as [?|[]]; try discriminate;
          eexists; (split; [reflexivity|]); ((by left) || (by right)). }
      destruct (waitForVolumeAvailable_again fuel block ctx volumeID timeout w
                  state) as (es' & Hes' & _ & Hmore);
        [by rewrite Hquery | exact Hstate |].
      fold run in Hes'. rewrite Hquery in Hes'. cbn [snd] in Hes'.
      pose proof (statusQuery_extends block ctx volumeID w) as Hq.
      rewrite Hquery in Hq. cbn [fst snd] in Hq.
      rewrite (ext_trace _ _ _ _ Hq), (ext_trace _ _ _ _ Hext),
        <- app_assoc in Hes'.
      apply app_inv_head in Hes'. subst es.
      destruct es'; [by destruct Hmore; [left|] | simpl; lia].
    + by apply (waitForVolumeAvailable_timed_out fuel block ctx volumeID
                  timeout w).
  - intros Hz. rewrite bool_decide_eq_true_2 in Hres by exact Hz.
    split; [exact Hres|]. by apply (Hzero Hz).
Qed.

End WaitFacts.

Lemma waitForVolumeAvailable_expired_witness :
  let block :=
    Scenario.provisioner (Scenario.scripted [Available] Scenario.deleteOK)
      Scenario.phoenix (Second * 30) (Second * 60) true (50 * Scenario.GiB) in
  let ctx := {| Deadline := Some 0 |} in
  let run := waitForVolumeAvailable 0 block ctx Scenario.volumeOCID
               (Second * 60) (Scenario.boot ∅) in
  run.1 = Some (Some (ErrFailedToProvision Scenario.volumeOCID
                        ErrDeadlineExceeded)) ∧
  trace run.2 =
    trace (Scenario.boot ∅)
      ++ [EvGetVolume (now (Scenario.boot ∅))
            (WithTimeout ctx (now (Scenario.boot ∅)) (Timeout (client block)))
            Scenario.volumeOCID (inl ErrDeadlineExceeded)].
Proof.
  intros block ctx.
  apply (waitForVolumeAvailable_expired 0 block ctx Scenario.volumeOCID
           (Second * 60) (Scenario.boot ∅) 0).
  - reflexivity.
  - reflexivity.
Defined.

Lemma waitForVolumeAvailable_times_out_witness :
  let block :=
    Scenario.provisioner (Scenario.scripted [] Scenario.deleteOK)
      Scenario.phoenix (Second * 30) (Second * 60) true (50 * Scenario.GiB) in
  let w := Scenario.boot ∅ in
  let run := waitForVolumeAvailable 0 block Background Scenario.volumeOCID
               (Second * 60) w in
  ∃ es, trace run.2 = trace w ++ es ∧
        (Second * 60 ≠ 0 →
         run.1 = Some (Some ErrWaitTimeout) ∧
         (2 ≤ length es
            ≤ 2 + Z.to_nat ((Second * 60) ÷ (Second * 5)))%nat ∧
         now (statusQuery block Background Scenario.volumeOCID w).2
           + Second * 60 ≤ now run.2) ∧
        (Second * 60 = 0 → run.1 = None ∧ length es = 1%nat).
Proof.
  intros block w.
  apply (waitForVolumeAvailable_times_out 0 block Background
           Scenario.volumeOCID (Second * 60) w).
  - reflexivity.
  - intros w'. exists 0, Provisioning. split; [reflexivity|].
    split; [by left | vm_compute; reflexivity].
Defined.

(** ** Runs of [Provision], call by call *)

Section ProvisionFacts.
Context {Quantity : Type} `{!QuantityAPI Quantity} `{!Imports}.
Implicit Types (block : blockProvisioner Quantity) (w : World) (fuel : nat).

(** The creation request and the log of a run that passes validation. *)
Lemma provisionCreate_payload block options ad w capacity :
  checkAccessModes (pvc_AccessModes (PVC options)) = None →
  pvc_Requests (PVC options) !! ResourceStorage = Some capacity →
  let run := provisionCreate block options ad w in
  let ctx := WithTimeout Background (now w) (Timeout (client block)) in
  let effective := effectiveCapacity block options capacity in
  let backup := pvc_Annotations (PVC options) !! OCIVolumeBackupID in
  let details :=
    {| AvailabilityDomainName := ad_Name ad;
       CompartmentId := CompartmentOCID (client block);
       DisplayName := GetPrefix +:+ pvc_Name (PVC options);
       SizeInMBs := roundUpSize (Value effective) (1024 * 1024);
       SourceDetails := backup |} in
  ∃ reply ls,
    extends w run.2 [EvCreateVolume (now w) ctx details reply] ls ∧
    infos ls =
      ["Provisioning volume"%string]
        ++ (if backup is Some _
            then ["Creating volume from backup."%string] else [])
        ++ (if reply is inr _
            then ["Waiting for volume to become available."%string] else []) ∧
    run.1 = match reply with
            | inl err => inl err
            | inr newVolume => inr (ctx, effective, newVolume)
            end.
Proof.
  intros Hmodes Hreq run ctx effective backup details.
  subst run ctx effective backup details.
  unfold provisionCreate. rewrite Hmodes, Hreq.
  unfold effectiveCapacity, bind, ret, clock, logf.
  destruct (volumeRoundingEnabled _), (block_volumeRoundingEnabled block),
    (bool_decide (Cmp _ _ = 1));
    destruct (pvc_Annotations _ !! _) as [source|];
    cbn [andb]; cbv beta iota zeta; cbn [now];
    match goal with
    | |- context [CreateVolume ?c ?ctx ?d ?w'] =>
        pose proof (CreateVolume_extends c ctx d w') as [T L E N];
        destruct (CreateVolume c ctx d w') as [[e|newVolume] w1]
    end; simpl in *;
    eexists _, _;
    (split; [split; simpl; rewrite ?T, ?L, ?E; simpl; rewrite <- ?app_assoc;
             (reflexivity || lia)|]);
    split; reflexivity.
Qed.

Lemma provisionCleanup_calls block ctx newVolume err w :
  let run := provisionCleanup block ctx newVolume err w in
  run.1 = inl err ∧
  ∃ reply,
    extends w run.2
      [EvDeleteVolume (now w) (WithTimeout ctx (now w) (Timeout (client block)))
         (Id newVolume) reply] [].
Proof.
  unfold provisionCleanup, bind, ret, clock. cbv beta iota zeta.
  match goal with
  | |- context [DeleteVolume ?c ?ctx ?d ?w'] =>
      pose proof (DeleteVolume_extends c ctx d w') as Hd;
      destruct (DeleteVolume c ctx d w') as [reply w1]
  end. simpl in *. eauto.
Qed.

(** Every run of [Provision], by how far it gets. *)
Lemma Provision_shape fuel block options ad w :
  let run := Provision fuel block options ad w in
  let callTimeout := Timeout (client block) in
  let ctx := WithTimeout Background (now w) callTimeout in
  (run.2 = w ∧
   (run.1 = Some (inl ErrNoVolumeSize) ∨
    ∃ m, run.1 = Some (inl (ErrInvalidAccessMode m))) ∧
   (checkAccessModes (pvc_AccessModes (PVC options)) ≠ None ∨
    pvc_Requests (PVC options) !! ResourceStorage = None)) ∨
  ∃ capacity details,
    checkAccessModes (pvc_AccessModes (PVC options)) = None ∧
    pvc_Requests (PVC options) !! ResourceStorage = Some capacity ∧
    details =
      {| AvailabilityDomainName := ad_Name ad;
         CompartmentId := CompartmentOCID (client block);
         DisplayName := GetPrefix +:+ pvc_Name (PVC options);
         SizeInMBs := roundUpSize
                        (Value (effectiveCapacity block options capacity))
                        (1024 * 1024);
         SourceDetails := pvc_Annotations (PVC options) !! OCIVolumeBackupID |} ∧
    ((∃ err, run.1 = Some (inl err) ∧
             trace run.2 = trace w ++ [EvCreateVolume (now w) ctx details (inl err)]) ∨
     ∃ newVolume qs tail,
       trace run.2 =
         trace w ++ EvCreateVolume (now w) ctx details (inr newVolume)
                 :: qs ++ tail ∧
       qs ≠ [] ∧
       Forall (isQueryUnder ctx callTimeout (Id newVolume) (now w)) qs ∧
       ((∃ err at_ reply,
           run.1 = Some (inl err) ∧ now w ≤ at_ ∧
           tail = [EvDeleteVolume at_ (WithTimeout ctx at_ callTimeout)
                     (Id newVolume) reply]) ∨
        (∃ region,
           environ w !! "OCI_SHORT_REGION"%string = Some region ∧
           tail = [] ∧
           run.1 = Some (inr (descriptor options ad
                                (effectiveCapacity block options capacity)
                                newVolume region))) ∨
        (∃ at_ reply,
           environ w !! "OCI_SHORT_REGION"%string = None ∧
           tail = [EvMetadataGet at_ reply] ∧
           run.1 = Some match reply with
                        | inl err => inl err
                        | inr metadata =>
                            inr (descriptor options ad
                                   (effectiveCapacity block options capacity)
                                   newVolume (Region metadata))
                        end) ∨
        (tail = [] ∧ run.1 = None ∧ timeout block = 0))).
Proof.
  intros run callTimeout ctx. subst run callTimeout ctx.
  destruct (checkAccessModes (pvc_AccessModes (PVC options))) as [e|] eqn:Hmodes.
  { left. unfold Provision. rewrite Hmodes. simpl. split; [reflexivity|].
    split; [|by left]. right.
    clear -Hmodes. revert Hmodes.
    induction (pvc_AccessModes (PVC options)) as [|m rest IH]; simpl;
      [discriminate|].
    case_bool_decide; [intros [= <-]; by eexists | exact IH]. }
  destruct (pvc_Requests (PVC options) !! ResourceStorage) as [capacity|]
    eqn:Hreq.
  2: { left. unfold Provision. rewrite Hmodes, Hreq. simpl.
       split; [reflexivity|]. split; [by left | by right]. }
  right. eexists capacity, _. split; [reflexivity|]. split; [reflexivity|].
  split; [reflexivity|].
  destruct (provisionCreate_payload block options ad w capacity Hmodes Hreq)
    as (reply & ls & Hc & _ & Hres).
  rewrite Provision_phases.
  destruct (provisionCreate block options ad w) as [created wc].
  simpl in Hc, Hres. subst created.
  destruct reply as [err|newVolume].
  { left. exists err. split; [reflexivity|]. apply (ext_trace _ _ _ _ Hc). }
  right. exists newVolume.
  destruct (waitForVolumeAvailable_follows fuel block
              (WithTimeout Background (now w) (Timeout (client block)))
              (Id newVolume) (timeout block) wc)
    as (qs & (Hq & Hall & _) & Hlen & Htimed & _).
  apply (isQueryUnder_since _ _ _ _ (now w)) in Hall;
    [|apply (ext_now _ _ _ _ Hc)].
  assert (qs ≠ []) as Hne by (destruct qs; [simpl in Hlen; lia | discriminate]).
  destruct (waitForVolumeAvailable _ _ _ _ _ wc) as [[[err|]|] wp];
    cbv zeta; cbn [fst snd] in *.
  - destruct (provisionCleanup_calls block
                (WithTimeout Background (now w) (Timeout (client block)))
                newVolume err wp) as (Hres & reply & Hdel).
    exists qs, [EvDeleteVolume (now wp)
                  (WithTimeout
                     (WithTimeout Background (now w) (Timeout (client block)))
                     (now wp) (Timeout (client block)))
                  (Id newVolume) reply].
    split_and!; try assumption.
    + rewrite (ext_trace _ _ _ _ Hdel), (ext_trace _ _ _ _ Hq),
        (ext_trace _ _ _ _ Hc), <- !app_assoc. reflexivity.
    + left. exists err, (now wp), reply.
      split_and!; [by rewrite Hres| |reflexivity].
      pose proof (ext_now _ _ _ _ Hc). pose proof (ext_now _ _ _ _ Hq). lia.
  - pose proof (provisionDescriptor_run block options ad
                  (effectiveCapacity block options capacity) newVolume wp)
      as Hdesc.
    rewrite (ext_environ _ _ _ _ Hq), (ext_environ _ _ _ _ Hc) in Hdesc.
    destruct (environ w !! "OCI_SHORT_REGION"%string) as [region|] eqn:Henv.
    + simpl in Hdesc. rewrite Hdesc. simpl. exists qs, [].
      split_and!; try assumption.
      * rewrite (ext_trace _ _ _ _ Hq), (ext_trace _ _ _ _ Hc), app_nil_r,
          <- app_assoc. reflexivity.
      * right. left. by exists region.
    + destruct Hdesc as (Hmeta & _ & Hres).
      exists qs, [EvMetadataGet (now wp) (onGet (metadata block) wp)].
      split_and!; try assumption.
      * rewrite (ext_trace _ _ _ _ Hmeta), (ext_trace _ _ _ _ Hq),
          (ext_trace _ _ _ _ Hc), <- !app_assoc. reflexivity.
      * right. right. left. eexists _, _.
        split_and!; [reflexivity..|by rewrite Hres].
  - exists qs, []. split_and!; try assumption.
    + rewrite (ext_trace _ _ _ _ Hq), (ext_trace _ _ _ _ Hc), app_nil_r,
        <- app_assoc. reflexivity.
    + right. right. right. split_and!; [reflexivity..|].
      destruct (decide (timeout block = 0)) as [Hzero|Hne']; [exact Hzero|].
      destruct (proj1 (Htimed Hne')); discriminate.
Qed.
End ProvisionFacts.

(** ** Validation and creation *)

Section CreationFacts.
Context {Quantity : Type} `{!QuantityAPI Quantity} `{!Imports}.
Implicit Types (block : blockProvisioner Quantity) (w : World) (fuel : nat).

(** X8: a request whose access modes are all [ReadWriteOnce] but which
    asks for no storage quantity is rejected with the could-not-determine
    error, before any call is made or any line logged. *)
Theorem Provision_missing_capacity fuel block options ad w :
  Forall (λ accessMode, accessMode = ReadWriteOnce)
         (pvc_AccessModes (PVC options)) →
  pvc_Requests (PVC options) !! ResourceStorage = None →
  Provision fuel block options ad w = (Some (inl ErrNoVolumeSize), w).
Proof.
  intros Hmodes Hreq. apply checkAccessModes_None in Hmodes.
  unfold Provision. by rewrite Hmodes, Hreq.
Qed.

(** X9: when the creation call of a run is answered with an error,
    [Provision] returns that error and the run makes no further call: no
    status query and no delete. *)
Theorem Provision_create_failed fuel block options ad w at_ ctx details err
    es :
  trace (Provision fuel block options ad w).2
    = trace w ++ EvCreateVolume at_ ctx details (inl err) :: es →
  es = [] ∧ (Provision fuel block options ad w).1 = Some (inl err).
Proof.
  intros Htrace.
  destruct (Provision_shape fuel block options ad w)
    as [(Hw & _) | (capacity & details' & _ & _ & _ &
                    [(err' & Hres & Htr) | (newVolume & qs & tail & Htr & _)])].
  - rewrite Hw in Htrace. rewrite <- (app_nil_r (trace w)) in Htrace at 1.
    apply app_inv_head in Htrace. discriminate.
  - rewrite Htr in Htrace. apply app_inv_head in Htrace.
    injection Htrace as _ _ _ <- <-. by split.
  - rewrite Htr in Htrace. apply app_inv_head in Htrace. discriminate.
Qed.

(** X10: a run that passes validation starts with the creation call, made
    at once under a context that expires one call timeout later.  The
    request names the availability domain, the client's compartment, the
    prefixed claim name, the size in allocation units of the effective
    capacity, and the backup of the claim's source annotation when there is
    one.  The run's informational log lines are the provisioning notice,
    the notice of a creation from backup when the annotation is there, and
    the notice of the wait when the creation succeeded. *)
Theorem Provision_create_payload fuel block options ad w capacity :
  Forall (λ accessMode, accessMode = ReadWriteOnce)
         (pvc_AccessModes (PVC options)) →
  pvc_Requests (PVC options) !! ResourceStorage = Some capacity →
  let run := Provision fuel block options ad w in
  let backup := pvc_Annotations (PVC options) !! OCIVolumeBackupID in
  let details :=
    {| AvailabilityDomainName := ad_Name ad;
       CompartmentId := CompartmentOCID (client block);
       DisplayName := GetPrefix +:+ pvc_Name (PVC options);
       SizeInMBs := roundUpSize
                      (Value (effectiveCapacity block options capacity))
                      (1024 * 1024);
       SourceDetails := backup |} in
  ∃ reply es ls,
    trace run.2 =
      trace w ++ EvCreateVolume (now w)
                   {| Deadline := Some (now w + Timeout (client block)) |}
                   details reply :: es ∧
    logs run.2 = logs w ++ ls ∧
    infos ls =
      ["Provisioning volume"%string]
        ++ (if backup is Some _
            then ["Creating volume from backup."%string] else [])
        ++ (if reply is inr _
            then ["Waiting for volume to become available."%string] else []).
Proof.
  intros Hmodes Hreq run backup details. subst run backup details.
  apply checkAccessModes_None in Hmodes.
  destruct (provisionCreate_payload block options ad w capacity Hmodes Hreq)
    as (reply & ls & Hc & Hinfos & Hres).
  pose proof (Provision_phases fuel block options ad w) as Hphases.
  destruct (provisionCreate block options ad w) as [created wc] eqn:Hcreate.
  simpl in Hc, Hres. subst created.
  destruct reply as [err|newVolume].
  - rewrite Hphases. simpl. exists (inl err), [], ls. split_and!.
    + apply (ext_trace _ _ _ _ Hc).
    + apply (ext_logs _ _ _ _ Hc).
    + exact Hinfos.
  - destruct (Provision_tail fuel block options ad w _ _ _ _ Hcreate)
      as ((es & Hes) & _).
    exists (inr newVolume), es, ls. split_and!.
    + rewrite (ext_trace _ _ _ _ Hes), (ext_trace _ _ _ _ Hc), <- app_assoc.
      reflexivity.
    + rewrite (ext_logs _ _ _ _ Hes), (ext_logs _ _ _ _ Hc), app_nil_r.
      reflexivity.
    + exact Hinfos.
Qed.

(** X11: a request that is not below the configured minimum (the minimum
    does not compare greater) is never rounded, whatever the two rounding
    switches say: the creation call asks for the requested capacity in
    allocation units, no warning is logged, and a returned descriptor
    reports the requested capacity. *)
Theorem Provision_no_floor fuel block options ad w capacity :
  Forall (λ accessMode, accessMode = ReadWriteOnce)
         (pvc_AccessModes (PVC options)) →
  pvc_Requests (PVC options) !! ResourceStorage = Some capacity →
  Cmp (minVolumeSize block) capacity ≠ 1 →
  let run := Provision fuel block options ad w in
  ∃ at_ ctx details reply es ls,
    trace run.2 = trace w ++ EvCreateVolume at_ ctx details reply :: es ∧
    logs run.2 = logs w ++ ls ∧
    SizeInMBs details = roundUpSize (Value capacity) (1024 * 1024) ∧
    warnings ls = [] ∧
    ∀ pv, run.1 = Some (inr pv) →
          pv_Capacity pv = {[ ResourceStorage := capacity ]}.
Proof.
  intros Hmodes Hreq Hnot run. subst run.
  apply checkAccessModes_None in Hmodes.
  destruct (provisionCreate_run block options ad w capacity Hmodes Hreq)
    as (details & reply & ls & Hc & Hsize & _ & Hwarn & Hreply).
  assert (effectiveCapacity block options capacity = capacity) as Heff.
  { unfold effectiveCapacity. rewrite (bool_decide_eq_false_2 _ Hnot).
    by rewrite andb_false_r. }
  rewrite Heff in Hsize, Hreply.
  rewrite (bool_decide_eq_false_2 _ Hnot), andb_false_r in Hwarn.
  pose proof (Provision_phases fuel block options ad w) as Hphases.
  destruct (provisionCreate block options ad w)
    as [[err|[[ctx' capacity'] newVolume]] wc] eqn:Hcreate; simpl in Hc.
  - rewrite Hphases. simpl.
    eexists (now w), _, details, reply, [], ls. split_and!; try eassumption.
    + apply (ext_trace _ _ _ _ Hc).
    + apply (ext_logs _ _ _ _ Hc).
    + discriminate.
  - destruct (Provision_tail fuel block options ad w _ _ _ _ Hcreate)
      as ((es & Hes) & Hpv).
    destruct reply as [err|newVolume']; [discriminate|].
    simpl in Hreply. injection Hreply as -> -> ->.
    eexists (now w), _, details, (inr newVolume'), es, ls.
    split_and!; try eassumption.
    + rewrite (ext_trace _ _ _ _ Hes), (ext_trace _ _ _ _ Hc), <- app_assoc.
      reflexivity.
    + rewrite (ext_logs _ _ _ _ Hes), (ext_logs _ _ _ _ Hc), app_nil_r.
      reflexivity.
    + intros pv Hrun. destruct (Hpv pv Hrun) as (region & ->). reflexivity.
Qed.
End CreationFacts.

Lemma Provision_missing_capacity_witness :
  Provision 0
    (Scenario.provisioner (Scenario.scripted [Available] Scenario.deleteOK)
       Scenario.phoenix (Second * 30) (Second * 60) true (50 * Scenario.GiB))
    Outage.unsized Scenario.phx1 (Scenario.boot ∅)
  = (Some (inl ErrNoVolumeSize), Scenario.boot ∅).
Proof.
  apply (Provision_missing_capacity 0
           (Scenario.provisioner (Scenario.scripted [Available] Scenario.deleteOK)
              Scenario.phoenix (Second * 30) (Second * 60) true
              (50 * Scenario.GiB))
           Outage.unsized).
  - repeat constructor.
  - reflexivity.
Defined.

Lemma Provision_create_failed_witness :
  let block :=
    Scenario.provisioner Outage.refusing Scenario.phoenix (Second * 30)
      (Second * 60) true (50 * Scenario.GiB) in
  let options := Scenario.request [ReadWriteOnce] (40 * Scenario.GiB) ∅ in
  @nil Event = [] ∧
  (Provision 0 block options Scenario.phx1 (Scenario.boot ∅)).1
    = Some (inl (ErrService 400 "LimitExceeded")).
Proof.
  intros block options.
  apply (Provision_create_failed 0 block options Scenario.phx1 (Scenario.boot ∅)
           0 {| Deadline := Some (Second * 30) |}
           {| AvailabilityDomainName := "PHX-AD-1";
              CompartmentId := "ocid1.compartment.oc1..c";
              DisplayName := "kube-claim-1";
              SizeInMBs := 51200;
              SourceDetails := None |}
           (ErrService 400 "LimitExceeded") []).
  vm_compute. reflexivity.
Defined.

Lemma Provision_create_payload_witness :
  let block :=
    Scenario.provisioner (Scenario.scripted [Available] Scenario.deleteOK)
      Scenario.phoenix (Second * 30) (Second * 60) true (50 * Scenario.GiB) in
  let options := Outage.restore (60 * Scenario.GiB) "ocid1.volumebackup.oc1.phx.b" in
  let w := Scenario.boot ∅ in
  let run := Provision 0 block options Scenario.phx1 w in
  let backup := pvc_Annotations (PVC options) !! OCIVolumeBackupID in
  let details :=
    {| AvailabilityDomainName := ad_Name Scenario.phx1;
       CompartmentId := CompartmentOCID (client block);
       DisplayName := GetPrefix +:+ pvc_Name (PVC options);
       SizeInMBs := roundUpSize
                      (Value (effectiveCapacity block options (60 * Scenario.GiB)))
                      (1024 * 1024);
       SourceDetails := backup |} in
  ∃ reply es ls,
    trace run.2 =
      trace w ++ EvCreateVolume (now w)
                   {| Deadline := Some (now w + Timeout (client block)) |}
                   details reply :: es ∧
    logs run.2 = logs w ++ ls ∧
    infos ls =
      ["Provisioning volume"%string]
        ++ (if backup is Some _
            then ["Creating volume from backup."%string] else [])
        ++ (if reply is inr _
            then ["Waiting for volume to become available."%string] else []).
Proof.
  intros block options w.
  apply (Provision_create_payload 0 block options Scenario.phx1 w
           (60 * Scenario.GiB)).
  - repeat constructor.
  - vm_compute. reflexivity.
Defined.

Lemma Provision_no_floor_witness :
  let block :=
    Scenario.provisioner (Scenario.scripted [Available] Scenario.deleteOK)
      Scenario.phoenix (Second * 30) (Second * 60) true (50 * Scenario.GiB) in
  let options := Outage.restore (60 * Scenario.GiB) "ocid1.volumebackup.oc1.phx.b" in
  let run := Provision 0 block options Scenario.phx1 (Scenario.boot ∅) in
  ∃ at_ ctx details reply es ls,
    trace run.2 =
      trace (Scenario.boot ∅) ++ EvCreateVolume at_ ctx details reply :: es ∧
    logs run.2 = logs (Scenario.boot ∅) ++ ls ∧
    SizeInMBs details = roundUpSize (Value (60 * Scenario.GiB)) (1024 * 1024) ∧
    warnings ls = [] ∧
    ∀ pv, run.1 = Some (inr pv) →
          pv_Capacity pv = {[ ResourceStorage := 60 * Scenario.GiB ]}.
Proof.
  intros block options.
  apply (Provision_no_floor 0 block options Scenario.phx1 (Scenario.boot ∅)
           (60 * Scenario.GiB)).
  - repeat constructor.
  - vm_compute. reflexivity.
  - vm_compute. discriminate.
Defined.

(** ** Descriptors, call order and deadlines *)

Section ShapeFacts.
Context {Quantity : Type} `{!QuantityAPI Quantity} `{!Imports}.
Implicit Types (block : blockProvisioner Quantity) (w : World) (fuel : nat).

(** X12: a returned descriptor passes on the request's reclaim policy,
    access modes (all of them [ReadWriteOnce]) and mount options; names the
    flex-volume driver of the provisioner; has the file-system type of the
    [fsType] parameter, or ext4 without one; carries the volume-id
    annotation and no other; and, the two label keys being different,
    labels the failure domain with the availability domain's name. *)
Theorem Provision_descriptor_fields fuel block options ad w pv w' :
  Provision fuel block options ad w = (Some (inr pv), w') →
  pv_ReclaimPolicy pv = PersistentVolumeReclaimPolicy options ∧
  pv_AccessModes pv = pvc_AccessModes (PVC options) ∧
  Forall (λ accessMode, accessMode = ReadWriteOnce) (pv_AccessModes pv) ∧
  pv_MountOptions pv = MountOptions options ∧
  pv_FlexDriver pv = OCIProvisionerName ∧
  pv_FlexFSType pv = default "ext4"%string (Parameters options !! FSType) ∧
  pv_Annotations pv = {[ OCIVolumeID := pv_Name pv ]} ∧
  (LabelZoneRegion ≠ LabelZoneFailureDomain →
   pv_Labels pv !! LabelZoneFailureDomain = Some (ad_Name ad)).
Proof.
  intros Hrun.
  assert (∃ capacity newVolume region,
            checkAccessModes (pvc_AccessModes (PVC options)) = None ∧
            pv = descriptor options ad capacity newVolume region)
    as (capacity & newVolume & region & Hmodes & ->).
  { destruct (Provision_shape fuel block options ad w)
      as [(_ & [Hres | (m & Hres)] & _)
         | (capacity & details & Hmodes & _ & _ &
            [(err & Hres & _)
            | (newVolume & qs & tail & _ & _ & _ &
               [(err & at_ & reply & Hres & _)
               | [(region & _ & _ & Hres)
                 | [(at_ & reply & _ & _ & Hres)
                   | (_ & Hres & _)]]])])];
      rewrite Hrun in Hres; simpl in Hres; try discriminate.
    - injection Hres as ->. by eexists _, _, _.
    - destruct reply as [?|md]; [discriminate|].
      injection Hres as ->. by eexists _, _, _. }
  apply checkAccessModes_None in Hmodes.
  split_and!; try reflexivity; try assumption.
  intros Hkeys. unfold descriptor. simpl.
  rewrite lookup_insert_ne by assumption. apply lookup_singleton_eq.
Qed.

(** X13: the calls of a run come in one order.  A run makes no call at
    all, or starts with the creation call.  After a refused creation
    nothing follows.  After a successful one come one or more status
    queries, all for the created volume, and then at most one more call:
    the delete call for that volume, or the metadata query. *)
Theorem Provision_call_order fuel block options ad w :
  let run := Provision fuel block options ad w in
  ∃ es, trace run.2 = trace w ++ es ∧
    (es = [] ∨
     (∃ at_ ctx details err, es = [EvCreateVolume at_ ctx details (inl err)]) ∨
     ∃ at_ ctx details newVolume qs tail,
       es = EvCreateVolume at_ ctx details (inr newVolume) :: qs ++ tail ∧
       qs ≠ [] ∧ Forall (isQueryOf (Id newVolume)) qs ∧
       (tail = [] ∨
        (∃ at' reply, tail = [EvMetadataGet at' reply]) ∨
        ∃ at' ctx' reply,
          tail = [EvDeleteVolume at' ctx' (Id newVolume) reply])).
Proof.
  intros run. subst run.
  destruct (Provision_shape fuel block options ad w)
    as [(Hw & _)
       | (capacity & details & _ & _ & _ &
          [(err & _ & Htr)
          | (newVolume & qs & tail & Htr & Hne & Hall & Htail)])].
  - exists []. rewrite Hw, app_nil_r. split; [reflexivity | by left].
  - eexists. split; [exact Htr|]. right. left. by eexists _, _, _, _.
  - eexists. split; [exact Htr|]. right. right.
    eexists _, _, _, newVolume, qs, tail. split_and!; try done.
    + by eapply isQueryUnder_isQueryOf.
    + destruct Htail as [(err & at_ & reply & _ & _ & ->)
                        | [(region & _ & -> & _)
                          | [(at_ & reply & _ & -> & _) | (-> & _)]]].
      * right. right. by eexists _, _, _.
      * by left.
      * right. left. by eexists _, _.
      * by left.
Qed.

(** X14: every call a run makes to the block-storage service, the status
    queries and the clean-up delete included, is made under one and the
    same deadline: the start of the run plus the client's call timeout. *)
Theorem Provision_shared_deadline fuel block options ad w :
  let run := Provision fuel block options ad w in
  ∃ es, trace run.2 = trace w ++ es ∧
        Forall (underDeadline (now w + Timeout (client block))) es.
Proof.
  intros run. subst run.
  destruct (Provision_shape fuel block options ad w)
    as [(Hw & _)
       | (capacity & details & _ & _ & _ &
          [(err & _ & Htr)
          | (newVolume & qs & tail & Htr & Hne & Hall & Htail)])].
  - exists []. rewrite Hw, app_nil_r. by split.
  - eexists. split; [exact Htr|]. by repeat constructor.
  - eexists. split; [exact Htr|].
    constructor; [reflexivity|]. apply Forall_app. split.
    + eapply Forall_impl; [exact Hall|].
      intros [] He; simpl in *; try done.
      destruct He as (_ & Hat & ->). simpl. f_equal. lia.
    + destruct Htail as [(err & at_ & reply & _ & Hat & ->)
                        | [(region & _ & -> & _)
                          | [(at_ & reply & _ & -> & _) | (-> & _)]]];
        repeat constructor. simpl. f_equal. lia.
Qed.
End ShapeFacts.

Lemma Provision_descriptor_fields_witness :
  let block :=
    Scenario.provisioner (Scenario.scripted [Available] Scenario.deleteOK)
      Scenario.phoenix (Second * 30) (Second * 60) true (50 * Scenario.GiB) in
  let options := Outage.restore (60 * Scenario.GiB) "ocid1.volumebackup.oc1.phx.b" in
  let run := Provision 0 block options Scenario.phx1 (Scenario.boot ∅) in
  let pv :=
    descriptor options Scenario.phx1 (60 * Scenario.GiB)
      {| Id := Scenario.volumeOCID; LifecycleState := Provisioning |} "phx" in
  pv_ReclaimPolicy pv = PersistentVolumeReclaimPolicy options ∧
  pv_AccessModes pv = pvc_AccessModes (PVC options) ∧
  Forall (λ accessMode, accessMode = ReadWriteOnce) (pv_AccessModes pv) ∧
  pv_MountOptions pv = MountOptions options ∧
  pv_FlexDriver pv = OCIProvisionerName ∧
  pv_FlexFSType pv = default "ext4"%string (Parameters options !! FSType) ∧
  pv_Annotations pv = {[ OCIVolumeID := pv_Name pv ]} ∧
  (LabelZoneRegion ≠ LabelZoneFailureDomain →
   pv_Labels pv !! LabelZoneFailureDomain = Some (ad_Name Scenario.phx1)).
Proof.
  intros block options run pv.
  apply (Provision_descriptor_fields 0 block options Scenario.phx1
           (Scenario.boot ∅) pv run.2).
  vm_compute. reflexivity.
Defined.

(** ** The calls of [Delete] *)

Section DeleteFacts.
Context {Quantity : Type} `{!QuantityAPI Quantity} `{!Imports}.
Implicit Types (block : blockProvisioner Quantity) (w : World) (fuel : nat).

(** X15: [Delete] makes no call for a descriptor without the volume-id
    annotation and leaves the world as it was; for an annotated descriptor
    it makes exactly one call, the delete call for the annotated id, at
    once and under a fresh context that expires one call timeout later. *)
Theorem Delete_calls block volume w :
  match pv_Annotations volume !! OCIVolumeID with
  | None => (Delete block volume w).2 = w
  | Some volID =>
      ∃ reply,
        trace (Delete block volume w).2 =
          trace w ++ [EvDeleteVolume (now w)
                        {| Deadline := Some (now w + Timeout (client block)) |}
                        volID reply]
  end.
Proof.
  destruct (pv_Annotations volume !! OCIVolumeID) as [volID|] eqn:Hann.
  - destruct (Delete_run block volume w volID Hann) as (_ & ls & Hdel).
    eexists. apply (ext_trace _ _ _ _ Hdel).
  - by rewrite (Delete_unannotated block volume w Hann).
Qed.
End DeleteFacts.

(** ** The answers behind the result of a wait *)

Section WaitAnswers.
Context {Quantity : Type} `{!QuantityAPI Quantity} `{!Imports}.
Implicit Types (block : blockProvisioner Quantity) (w : World) (fuel : nat).

(** X16: the result of a wait is decided by the answer to its last status
    query, and every earlier query was answered with a state that is
    neither ready nor failed: the wait never polls again after [Available],
    after a failed state or after an error of the query.  A last answer
    [Available] gives nil; a failed state or an error gives the
    failed-to-provision error for it; a state still pending gives the
    timeout error.  A wait with a timeout other than zero always returns;
    one that has not returned has seen nothing but pending states. *)
Theorem waitForVolumeAvailable_answers fuel block ctx volumeID timeout w :
  let run := waitForVolumeAvailable fuel block ctx volumeID timeout w in
  ∃ es waiting,
    trace run.2 = trace w ++ es ∧
    Forall pending waiting ∧
    match run.1 with
    | Some result =>
        ∃ final,
          queried es =
            ((λ state, (volumeID, inr state)) <$> waiting)
              ++ [(volumeID, final)] ∧
          settles volumeID final result
    | None =>
        timeout = 0 ∧
        queried es = (λ state, (volumeID, inr state)) <$> waiting ∧
        length es = S fuel
    end.
Proof.
  intros run.
  destruct (waitForVolumeAvailable_follows fuel block ctx volumeID timeout w)
    as (es & (Hext & _ & _ & waiting & Hwaiting & Hout) & _ & Htimed & Hzero).
  fold run in Hext, Hout, Htimed, Hzero.
  exists es, waiting. split; [apply (ext_trace _ _ _ _ Hext)|].
  split; [exact Hwaiting|].
  destruct (run.1) as [result|]; [exact Hout|].
  destruct (decide (timeout = 0)) as [Hz|Hne].
  - split_and!; [exact Hz | exact Hout | by apply (Hzero Hz)].
  - destruct (proj1 (Htimed Hne)); discriminate.
Qed.
End WaitAnswers.

(** ** Waits that return, and how long a wait is followed *)

Section Following.
Context {Quantity : Type} `{!QuantityAPI Quantity} `{!Imports}.
Implicit Types (block : blockProvisioner Quantity) (w : World) (fuel : nat).

(** The timed loop is prepared for every tick the ticker can give before
    the timer fires: preparing it for more changes nothing. *)
Lemma pollTimed_ticks block ctx volumeID start interval stop :
  0 < interval →
  ∀ ticks extra w,
    start ≤ now w →
    stop < start
           + ((now w - start) ÷ interval + 1 + Z.of_nat ticks) * interval →
    pollTimed (ticks + extra) start interval stop
      (pollCondition block ctx volumeID) w =
    pollTimed ticks start interval stop (pollCondition block ctx volumeID) w.
Proof.
  intros Hpos. induction ticks as [|ticks IH]; intros extra w Hstart Hstop.
  - destruct extra as [|extra]; [reflexivity|].
    cbn [Nat.add pollTimed]. rewrite !bind_clock.
    rewrite bool_decide_eq_true_2; [reflexivity|]. unfold tickAfter. lia.
  - cbn [Nat.add pollTimed]. rewrite !bind_clock.
    case_bool_decide as Hfire; [reflexivity|].
    rewrite !bind_sleepUntil, !bind_pollCondition.
    set (w2 := setNow (Z.max (now w) (tickAfter start interval (now w))) w).
    pose proof (ext_now _ _ _ _ (statusQuery_extends block ctx volumeID w2))
      as Hnow.
    assert (∀ w3, now w2 ≤ now w3 →
              start ≤ now w3 ∧
              stop < start
                     + ((now w3 - start) ÷ interval + 1 + Z.of_nat ticks)
                       * interval) as Hnext.
    { intros w3 Hw3. subst w2. unfold tickAfter in Hw3. simpl in Hw3.
      set (n := (now w - start) ÷ interval) in *.
      assert (0 ≤ n) by (apply Z.quot_pos; lia).
      assert (n + 1 ≤ (now w3 - start) ÷ interval).
      { rewrite <- (Z.quot_mul (n + 1) interval) by lia.
        apply Z.quot_le_mono; lia. }
      split; [lia|]. nia. }
    destruct (statusQuery block ctx volumeID w2) as [[err|[]] w3];
      cbn [verdict fst snd] in *; try reflexivity.
    all: apply IH; apply (Hnext w3 Hnow).
Qed.

(** In particular the wait's own count of ticks, the whole intervals in
    its timeout, is enough. *)
Lemma pollTimed_enough block ctx volumeID timeout extra w :
  pollTimed (Z.to_nat (timeout ÷ (Second * 5)) + extra) (now w) (Second * 5)
    (now w + timeout) (pollCondition block ctx volumeID) w =
  pollTimed (Z.to_nat (timeout ÷ (Second * 5))) (now w) (Second * 5)
    (now w + timeout) (pollCondition block ctx volumeID) w.
Proof.
  assert (0 < Second * 5) as Hpos by reflexivity.
  apply pollTimed_ticks; [exact Hpos | lia |].
  replace (now w - now w) with 0 by lia.
  rewrite Z.quot_0_l by lia.
  destruct (Z.le_gt_cases 0 timeout) as [Hle|Hlt].
  - rewrite Z2Nat.id by (apply Z.quot_pos; lia).
    pose proof (Z.quot_rem' timeout (Second * 5)) as Hqr.
    pose proof (Z.rem_bound_pos timeout (Second * 5) Hle Hpos). lia.
  - assert (timeout ÷ (Second * 5) ≤ 0) as Hq.
    { rewrite <- (Z.quot_0_l (Second * 5)) by lia.
      apply Z.quot_le_mono; lia. }
    rewrite Z2Nat.nonpos by exact Hq. lia.
Qed.






End Following.


